(** * Spanish paragraph collector: extractor, adapters and orchestrator

    A shallow embedding of [generate_spanish_paragraphs.py] (with its
    [_fixed] copy) and [generate_spanish_paragraphs_v2.py].

    - Python [str] values are sequences of Unicode code points, [list N].
    - The network, the feed parser, the HTML parser and the domain parser
      are libraries outside the repository: they are record fields of a
      [world] or Section variables.
    - [for ... in gen()] with [try]/[except] is a pair of nested list
      recursions returning how the loop was left. *)

From Stdlib Require Import String Ascii DecimalString.
From stdpp Require Import base numbers list gmap sets.
From Equations Require Import Equations.

Local Open Scope Z_scope.

(** ** Python strings *)

Module PyStr.

(** A character is a Unicode code point. *)
Definition char := N.
Definition str := list char.

(** A literal of the model, from an ASCII literal of Rocq. *)
Definition py (s : string) : str := map N_of_ascii (list_ascii_of_string s).

Definition nl : char := 10%N.

(** [len(s)], of a string or of a list *)
Definition len {A} (s : list A) : Z := Z.of_nat (length s).

(** [str.isspace] on one character, which is also the regular expression
    class [\s] on [str] patterns and what [strip()] and [split()] remove. *)
Definition is_space (c : char) : bool :=
  ((9 <=? c) && (c <=? 13) || (28 <=? c) && (c <=? 32)
   || (c =? 133) || (c =? 160) || (c =? 5760)
   || (8192 <=? c) && (c <=? 8202)
   || (c =? 8232) || (c =? 8233) || (c =? 8239) || (c =? 8287)
   || (c =? 12288))%N.

(** [s.lstrip()] *)
Fixpoint lstrip (s : str) : str :=
  match s with
  | [] => []
  | c :: s' => if is_space c then lstrip s' else s
  end.

(** [s.strip()] *)
Definition strip (s : str) : str := rev (lstrip (rev (lstrip s))).

(** [s.split('\n')]: the pieces between newlines, empty ones included;
    [cur] is the piece being read, reversed. *)
Fixpoint split_nl_from (cur : str) (s : str) : list str :=
  match s with
  | [] => [rev cur]
  | c :: s' =>
      if (c =? nl)%N then rev cur :: split_nl_from [] s'
      else split_nl_from (c :: cur) s'
  end.

Definition split_nl (s : str) : list str := split_nl_from [] s.

(** [s.split()]: the maximal runs of characters that are not whitespace. *)
Fixpoint words_from (cur : str) (s : str) : list str :=
  match s with
  | [] => match cur with [] => [] | _ => [rev cur] end
  | c :: s' =>
      if is_space c
      then match cur with
           | [] => words_from [] s'
           | _ => rev cur :: words_from [] s'
           end
      else words_from (c :: cur) s'
  end.

Definition words (s : str) : list str := words_from [] s.

(** The backtracking matcher of the pattern tail [\s*\n]: the greedy star
    first takes [c] as whitespace and goes on; when that fails it gives [c]
    back, and [c] has to be the newline.  The result is the text after the
    match. *)
Fixpoint match_ws_nl (s : str) : option str :=
  match s with
  | [] => None
  | c :: s' =>
      if is_space c then
        match match_ws_nl s' with
        | Some r => Some r
        | None => if (c =? nl)%N then Some s' else None
        end
      else None
  end.


(** A value together with the equation that it is the value of [a], for
    the recursive calls that depend on the result of a test. *)
Definition inspect {A} (a : A) : {b | a = b} := exist _ a eq_refl.

(** [re.split(r"\n\s*\n", s)]: the text is cut at every match of the
    pattern, found from left to right; the search goes on after a match. *)
Equations? re_split_from (cur : str) (s : str) : list str by wf (length s) lt :=
  re_split_from cur [] := [rev cur];
  re_split_from cur (c :: s') with inspect (if (c =? nl)%N then match_ws_nl s' else None) => {
    | exist _ (Some r) _ := rev cur :: re_split_from [] r;
    | exist _ None _ := re_split_from (c :: cur) s' }.
Proof.
  destruct (c =? nl)%N; [|done].
  assert (∀ s r, match_ws_nl s = Some r → (length r < length s)%nat) as shorter.
  { clear. induction s as [|a s IH]; intros r; simpl; [done|].
    destruct (is_space a); [|done].
    destruct (match_ws_nl s) as [r'|].
    - intros [= <-]. specialize (IH _ eq_refl). lia.
    - destruct (a =? nl)%N; [|done]. intros [= <-]. lia. }
  match goal with H : match_ws_nl _ = Some _ |- _ => apply shorter in H end.
  simpl. lia.
Qed.

Definition re_split_blank (s : str) : list str := re_split_from [] s.

End PyStr.

Import PyStr.

(** ** Text extractor *)

(** The loop shared by the variants of [first_long_paragraph]:
    [for p in blocks: p = p.strip(); if len(p) >= min_len: return p]
    and [return ""] after the loop. *)
Fixpoint first_long (blocks : list str) (min_len : Z) : str :=
  match blocks with
  | [] => []
  | p :: rest =>
      let p := strip p in
      if min_len <=? len p then p else first_long rest min_len
  end.

Definition MIN_PARAGRAPH_LEN : Z := 120.

(** [sep.join(parts)] *)
Fixpoint join (sep : str) (parts : list str) : str :=
  match parts with
  | [] => []
  | [p] => p
  | p :: rest => p ++ sep ++ join sep rest
  end.

(** [f"{n}"] for a number that is not negative. *)
Definition str_of_N (n : N) : str := py (NilZero.string_of_uint (N.to_uint n)).

(** ** Records, producers and the collection state *)

(** The tuple [(paragraph, tipo, url)] that every adapter yields. *)
Record record := Rec { paragraph : str; tipo : str; url : str }.

#[global] Instance record_eq_dec : EqDecision record.
Proof. solve_decision. Defined.

(** The exceptions an adapter raises: [RuntimeError] from its own [raise]
    statements (the message is the UTF-8 text of the source), the transport
    errors of [requests], the decoding errors of [resp.json()].  All are
    instances of [Exception], and none is [StopIteration]: the adapters
    never call [next], and inside a generator Python turns a
    [StopIteration] into a [RuntimeError]. *)
Inductive fault :=
| RuntimeError (msg : string)
| RequestException
| ValueError.

(** What reaches the [try] of [main]: the [StopIteration] that [main]
    raises itself on quota, or an adapter's exception. *)
Inductive exn :=
| StopIteration
| Fault (f : fault).

(** What calling [gen()] and iterating over it gives: the records in the
    order they are yielded, and how the iteration ends, normally or with an
    exception.  A list producer [lambda: [f()]] that raises does so inside
    [gen()], before the first record. *)
Record producer := Producer { yields : list record; ending : option fault }.

(** What [main] does to its producers, for the statements on laziness. *)
Inductive event :=
| Consult            (* [gen()] is called *)
| Pull (r : record). (* one record is taken from the iterator *)

(** The variables [collected] and [seen_urls] of [main], and the ghost
    [log] of producer calls and pulls. *)
Record state := State {
  collected : list record;
  seen_urls : gset str;
  log : list event
}.

Definition init : state := State [] ∅ [].

(** How the loop over the producers was left. *)
Inductive status := QuotaReached | SourcesExhausted.

Definition consult (st : state) : state :=
  State (collected st) (seen_urls st) (log st ++ [Consult]).

Definition pull (st : state) (r : record) : state :=
  State (collected st) (seen_urls st) (log st ++ [Pull r]).

(** [collected.append((paragraph, tipo, url)); seen_urls.add(url)] *)
Definition accept (st : state) (r : record) : state :=
  State (collected st ++ [r]) ({[url r]} ∪ seen_urls st) (log st).

(** ** The collection loop *)

Section Loop.

(** The test that lets a record in, and the quota: the variants of [main]
    differ in these two only. *)
Variable gate : gset str → record → bool.
Variable goal : Z.

(** The body of the inner [for]: the new state, and whether
    [raise StopIteration] was reached. *)
Definition body (st : state) (r : record) : state * bool :=
  if gate (seen_urls st) r then
    let st' := accept st r in
    (st', bool_decide (goal ≤ len (collected st')))
  else (st, false).

(** [for paragraph, tipo, url in gen(): ...] over what is left of the
    iterator: the state, and the exception that left the loop if any. *)
Fixpoint drain (st : state) (rs : list record) (e : option fault)
  : state * option exn :=
  match rs with
  | [] => (st, Fault <$> e)
  | r :: rs' =>
      let '(st', stop) := body (pull st r) r in
      if stop then (st', Some StopIteration) else drain st' rs' e
  end.

(** [for gen in generators: try: ... except StopIteration: break
    except Exception: continue] *)
Fixpoint collect (st : state) (gens : list producer) : state * status :=
  match gens with
  | [] => (st, SourcesExhausted)
  | gen :: gens' =>
      match drain (consult st) (yields gen) (ending gen) with
      | (st', Some StopIteration) => (st', QuotaReached)
      | (st', Some (Fault _)) => collect st' gens'
      | (st', None) => collect st' gens'
      end
  end.

Definition run (gens : list producer) : state * status := collect init gens.

End Loop.

(** ** What [main] prints and saves *)

Inductive message :=
| OnlyCollected (n : Z)     (* "Advertencia: solo se recolectaron {n} párrafos" *)
| CollectedAll (n : Z)      (* "Se recolectaron {n} párrafos" *)
| Obtained (n goal : Z)     (* "Se obtuvieron {n} párrafos (objetivo={goal})." *)
| Saved                     (* "CSV guardado en {path}" *)
| NotReached.               (* "Advertencia: no se alcanzó la cifra solicitada; ..." *)

(** The lines printed, in order, and the rows handed to [DataFrame.to_csv]. *)
Record output := Output { stdout : list message; csv : list record }.

(** ** The network and the libraries, as the adapters see them *)

(** [resp.status_code], [resp.text] and [resp.url], the address the
    response finally came from once redirects were followed. *)
Record response := Response { status_code : Z; text : str; resp_url : str }.

(** A call that returns or raises. *)
Inductive result (A : Type) :=
| Return (a : A)
| Raise (f : fault).
Arguments Return {A} a.
Arguments Raise {A} f.

#[global] Instance result_ret : MRet result := @Return.
#[global] Instance result_bind : MBind result := λ A B k m,
  match m with
  | Return a => k a
  | Raise f => Raise f
  end.

Record world := World {
  (** [requests.get(url, headers=HEADERS, timeout=...)] *)
  http_get : str → result response;
  (** [[entry.get("link") for entry in feedparser.parse(rss_url).entries]] *)
  feed_links : str → list (option str);
  (** [[clean_html(p.get_text()) for p in BeautifulSoup(html, "html.parser").find_all("p")]] *)
  soup_paragraphs : str → list str;
  (** [resp.json()] read as [(data.get("extract", ""),
      data.get("content_urls", {}).get("desktop", {}).get("page", ""))] *)
  summary_json : str → result (str * str)
}.

(** The producer [lambda: [f()]]: [f] is called when the list is built. *)
Definition once (r : result record) : producer :=
  match r with
  | Return x => Producer [x] None
  | Raise f => Producer [] (Some f)
  end.

(** Python's truth value of a string. *)
Definition truthy (s : str) : bool :=
  match s with [] => false | _ => true end.

(** ** [generate_spanish_paragraphs.py] and [generate_spanish_paragraphs_fixed.py]

    The two files have the same functions; [main] stops at 100 records in
    the first and at 1000 in the second.  The first file holds its quote
    marks and backslashes escaped by a backslash; it is read as its
    [_fixed] copy is written.  The messages of the [RuntimeError]s are
    those of the first file; the second words them differently, and no
    statement below depends on their text. *)

Module V1.

(** The candidates are the lines of the text. *)
Definition first_long_paragraph (text : str) (min_len : Z) : str :=
  first_long (split_nl text) min_len.

Section Adapters.
Variable w : world.

Fixpoint rss_entries (tipo : str) (links : list (option str)) : list record :=
  match links with
  | [] => []
  | None :: rest => rss_entries tipo rest
  | Some link :: rest =>
      if negb (truthy link) then rss_entries tipo rest
      else
        match http_get w link with
        | Raise _ => rss_entries tipo rest
        | Return resp =>
            if negb (status_code resp =? 200) then rss_entries tipo rest
            else
              let paragraphs := soup_paragraphs w (text resp) in
              let paragraph := first_long_paragraph (join [nl] paragraphs) 120 in
              if truthy paragraph
              then Rec paragraph tipo link :: rss_entries tipo rest
              else rss_entries tipo rest
        end
  end.

Definition paragraphs_from_rss (rss_url tipo : str) : producer :=
  Producer (rss_entries tipo (feed_links w rss_url)) None.

Definition random_wikipedia_paragraph : result record :=
  resp ← http_get w (py "https://es.wikipedia.org/api/rest_v1/page/random/summary");
  data ← summary_json w (text resp);
  let '(extract, url) := data in
  let paragraph := first_long_paragraph extract 120 in
  if truthy paragraph && truthy url
  then Return (Rec paragraph (py "enciclopedia") url)
  else Raise (RuntimeError "No se pudo obtener párrafo de Wikipedia.").

Definition paragraph_from_gutenberg (gid : N) : result record :=
  let url := py "https://www.gutenberg.org/files/" ++ str_of_N gid
             ++ py "/" ++ str_of_N gid ++ py "-0.txt" in
  resp ← http_get w url;
  if negb (status_code resp =? 200)
  then Raise (RuntimeError "No se pudo descargar Gutenber.")
  else
    let paragraph := first_long_paragraph (text resp) 120 in
    Return (Rec paragraph (py "novela") url).

Definition random_cuento_paragraph : result record :=
  let base := py "https://cuentosparadormir.com/random" in
  resp ← http_get w base;
  if negb (status_code resp =? 200)
  then Raise (RuntimeError "No se pudo descargar cuento corto.")
  else
    let url := resp_url resp in
    let paragraphs := soup_paragraphs w (text resp) in
    let paragraph := first_long_paragraph (join [nl] paragraphs) 120 in
    Return (Rec paragraph (py "cuento") url).

End Adapters.

(** The feeds of [generate_spanish_paragraphs.py], by kind, in the order
    of the dictionary. *)
Definition RSS_SOURCES : list (str * list str) :=
  [ (py "noticia",
     [ py "https://feeds.elpais.com/mrss-s/pages/ep/site/elpais.com/section/internacional/rss";
       py "https://www.abc.es/rss/feeds/abc_Internacional.xml";
       py "https://e00-elmundo.uecdn.es/elmundo/rss/espana.xml";
       py "https://www.elperiodico.com/es/rss/rss_portada.xml";
       py "https://www.eldiario.es/rss" ]);
    (py "blog",
     [ py "https://hipertextual.com/feed";
       py "https://blogthinkbig.com/feed";
       py "https://www.xataka.com/rss";
       py "https://blog.uoc.edu/blog/feed";
       py "https://blog.es.weforum.org/feed" ]) ].

(** The feeds of [generate_spanish_paragraphs_fixed.py]. *)
Definition RSS_SOURCES_fixed : list (str * list str) :=
  [ (py "noticia",
     [ py "https://feeds.elpais.com/mrss-s/pages/ep/site/elpais.com/section/internacional/rss";
       py "https://www.abc.es/rss/feeds/abc_Internacional.xml";
       py "https://e00-elmundo.uecdn.es/elmundo/rss/espana.xml";
       py "https://www.elperiodico.com/es/rss/rss_portada.xml" ]);
    (py "blog",
     [ py "https://hipertextual.com/feed";
       py "https://blogthinkbig.com/feed";
       py "https://www.xataka.com/rss";
       py "https://blog.uoc.edu/blog/feed";
       py "https://blog.es.weforum.org/feed" ]) ].

Definition GUTENBERG_IDS : list N :=
  [2000; 16165; 59438; 4194; 39973; 43668; 45758; 57202; 18058; 18077;
   18080; 58737]%N.

(** The list [generators] of [main] before [random.shuffle], over the
    feeds [rss_sources]. *)
Definition generators (w : world) (rss_sources : list (str * list str))
  : list producer :=
  concat ((λ entry : str * list str,
             (λ rss, paragraphs_from_rss w rss entry.1) <$> entry.2)
          <$> rss_sources)
  ++ [once (random_wikipedia_paragraph w)]
  ++ ((λ g, once (paragraph_from_gutenberg w g)) <$> GUTENBERG_IDS)
  ++ [once (random_cuento_paragraph w)].

(** [len(paragraph.split())] *)
Definition word_count (s : str) : Z := len (words s).

(** [url not in seen_urls and len(paragraph.split()) > 20] *)
Definition accepts (seen : gset str) (r : record) : bool :=
  bool_decide (url r ∉ seen) && (20 <? word_count (paragraph r)).

(** [main] of [generate_spanish_paragraphs.py], from the shuffled list of
    producers on. *)
Definition main (generators : list producer) : output :=
  let collected := collected (run accepts 100 generators).1 in
  Output
    ((if len collected <? 100 then OnlyCollected (len collected)
      else CollectedAll 100) :: [Saved])
    collected.

(** [main] of [generate_spanish_paragraphs_fixed.py]. *)
Definition main_fixed (generators : list producer) : output :=
  let collected := collected (run accepts 1000 generators).1 in
  Output
    ((if len collected <? 1000 then OnlyCollected (len collected)
      else CollectedAll (len collected)) :: [Saved])
    collected.

End V1.

(** ** [generate_spanish_paragraphs_v2.py] *)

Module V2.

(** The candidates are the pieces between matches of [\n\s*\n]. *)
Definition first_long_paragraph (text : str) (min_len : Z) : str :=
  first_long (re_split_blank text) min_len.

Definition lbrace : char := 123%N.
Definition rbrace : char := 125%N.

(** The pattern tail [.*?\}\}] with [re.DOTALL]: the lazy star tries the
    two closing braces first and takes one more character, whichever it
    is, when they are not there.  The result is the text after the match. *)
Fixpoint match_lazy_close (s : str) : option str :=
  match s with
  | [] => None
  | a :: s' =>
      match s' with
      | b :: r =>
          if (a =? rbrace)%N && (b =? rbrace)%N then Some r
          else match_lazy_close s'
      | [] => None
      end
  end.

(** The pattern [\{\{.*?\}\}] at the start of [s]. *)
Definition match_template (s : str) : option str :=
  match s with
  | a :: b :: r =>
      if (a =? lbrace)%N && (b =? lbrace)%N then match_lazy_close r else None
  | _ => None
  end.

(** [re.sub(r"\{\{.*?\}\}", "", s, flags=re.DOTALL)] *)
Equations? sub_templates (s : str) : str by wf (length s) lt :=
  sub_templates [] := [];
  sub_templates (c :: s') with inspect (match_template (c :: s')) => {
    | exist _ (Some r) _ := sub_templates r;
    | exist _ None _ := c :: sub_templates s' }.
Proof.
  assert (∀ s r, match_lazy_close s = Some r → (length r < length s)%nat)
    as shorter.
  { clear. induction s as [|a s IH]; intros r; simpl; [done|].
    destruct s as [|b s']; [done|].
    destruct ((a =? rbrace)%N && (b =? rbrace)%N).
    - intros [= <-]. simpl. lia.
    - intros H. apply IH in H. simpl in *. lia. }
  destruct s' as [|b s']; [done|].
  destruct ((c =? lbrace)%N && (b =? lbrace)%N); [|done].
  match goal with H : match_lazy_close _ = Some _ |- _ =>
    apply shorter in H end.
  simpl. lia.
Qed.

Section Adapters.
Variable w : world.

Fixpoint rss_entries (tipo : str) (links : list (option str)) : list record :=
  match links with
  | [] => []
  | None :: rest => rss_entries tipo rest
  | Some link :: rest =>
      if negb (truthy link) then rss_entries tipo rest
      else
        match http_get w link with
        | Raise _ => rss_entries tipo rest
        | Return resp =>
            if negb (status_code resp =? 200) then rss_entries tipo rest
            else
              let paragraphs := soup_paragraphs w (text resp) in
              let paragraph :=
                first_long_paragraph (join [nl] paragraphs) MIN_PARAGRAPH_LEN in
              if truthy paragraph
              then Rec paragraph tipo link :: rss_entries tipo rest
              else rss_entries tipo rest
        end
  end.

Definition paragraphs_from_rss (rss_url tipo : str) : producer :=
  Producer (rss_entries tipo (feed_links w rss_url)) None.

(** The loop over [urls_try] of [paragraph_from_gutenberg]. *)
Fixpoint gutenberg_try (urls_try : list str) : result record :=
  match urls_try with
  | [] => Raise (RuntimeError "Gutenberg falló")
  | url :: rest =>
      resp ← http_get w url;
      if status_code resp =? 200 then
        let paragraph := first_long_paragraph (text resp) MIN_PARAGRAPH_LEN in
        if truthy paragraph
        then Return (Rec paragraph (py "novela") url)
        else gutenberg_try rest
      else gutenberg_try rest
  end.

Definition paragraph_from_gutenberg (gid : N) : result record :=
  let urls_try :=
    [ py "https://www.gutenberg.org/cache/epub/" ++ str_of_N gid
        ++ py "/pg" ++ str_of_N gid ++ py ".txt";
      py "https://www.gutenberg.org/files/" ++ str_of_N gid
        ++ py "/" ++ str_of_N gid ++ py "-0.txt" ] in
  gutenberg_try urls_try.

Definition paragraph_from_cervantes (url : str) : result record :=
  resp ← http_get w url;
  if negb (status_code resp =? 200)
  then Raise (RuntimeError "Cervantes falló")
  else
    let paragraphs := soup_paragraphs w (text resp) in
    let paragraph :=
      first_long_paragraph (join [nl] paragraphs) MIN_PARAGRAPH_LEN in
    Return (Rec paragraph (py "novela") url).

Definition paragraph_from_wikisource (url : str) : result record :=
  resp ← http_get w (url ++ py "?action=raw");
  if negb (status_code resp =? 200)
  then Raise (RuntimeError "Wikisource falló")
  else
    let text := sub_templates (text resp) in
    let paragraph := first_long_paragraph text MIN_PARAGRAPH_LEN in
    Return (Rec paragraph (py "cuento") url).

Definition random_wikipedia_paragraph : result record :=
  let api_url := py "https://es.wikipedia.org/api/rest_v1/page/random/summary" in
  resp ← http_get w api_url;
  data ← summary_json w (text resp);
  let '(extract, url) := data in
  let paragraph := first_long_paragraph extract MIN_PARAGRAPH_LEN in
  if truthy paragraph && truthy url
  then Return (Rec paragraph (py "enciclopedia") url)
  else Raise (RuntimeError "Wikipedia vacío").

Definition CUENTOS_RANDOM_BASE : str := py "https://cuentosparadormir.com/random".

Definition random_cuento_paragraph : result record :=
  resp ← http_get w CUENTOS_RANDOM_BASE;
  if negb (status_code resp =? 200)
  then Raise (RuntimeError "Cuento corto falló")
  else
    let url := resp_url resp in
    let paragraphs := soup_paragraphs w (text resp) in
    let paragraph :=
      first_long_paragraph (join [nl] paragraphs) MIN_PARAGRAPH_LEN in
    Return (Rec paragraph (py "cuento") url).

End Adapters.

Definition RSS_SOURCES : list (str * list str) :=
  [ (py "noticia",
     [ py "https://feeds.elpais.com/mrss-s/pages/ep/site/elpais.com/section/espana/rss";
       py "https://www.elmundo.es/rss/elmundo/espana.xml";
       py "https://www.abc.es/rss/feeds/abc_EspanaEspana.xml";
       py "https://www.publico.es/rss/publico/rss/section/politica/";
       py "https://www.eldiario.es/rss" ]);
    (py "blog",
     [ py "https://www.xataka.com/rss";
       py "https://hipertextual.com/feed";
       py "https://blogthinkbig.com/feed";
       py "https://blog.es.weforum.org/feed";
       py "https://www.genbeta.com/feed" ]) ].

Definition GUTENBERG_IDS : list N :=
  [2000; 16165; 59438; 4194; 39973; 43668; 45758; 57202; 18058; 18077;
   18080; 58737]%N.

Definition CERVANTES_URLS : list str :=
  [ py "https://www.cervantesvirtual.com/obra-visor/don-quijote-de-la-mancha--0/html/";
    py "https://www.cervantesvirtual.com/obra-visor/la-barraca-0/html/";
    py "https://www.cervantesvirtual.com/obra-visor/rimas-y-leyendas/html/";
    py "https://www.cervantesvirtual.com/obra-visor/pepita-jimenez-0/html/" ].

Definition WIKISOURCE_PAGES : list str :=
  [ py "https://es.wikisource.org/wiki/La_gallina_de_los_huevos_de_oro";
    py "https://es.wikisource.org/wiki/El_aleph_(cuento)";
    py "https://es.wikisource.org/wiki/Yo_y_mi_gato" ].

(** [build_generators] before its [random.shuffle(gens)]. *)
Definition build_generators (w : world) : list producer :=
  concat ((λ entry : str * list str,
             (λ rss, paragraphs_from_rss w rss entry.1) <$> entry.2)
          <$> RSS_SOURCES)
  ++ ((λ g, once (paragraph_from_gutenberg w g)) <$> GUTENBERG_IDS)
  ++ ((λ u, once (paragraph_from_cervantes w u)) <$> CERVANTES_URLS)
  ++ ((λ u, once (paragraph_from_wikisource w u)) <$> WIKISOURCE_PAGES)
  ++ [once (random_wikipedia_paragraph w)]
  ++ [once (random_cuento_paragraph w)].

Section DomainAware.

(** [domain(url)], computed by the library [tldextract]. *)
Variable domain : str → str.

(** [{domain(u) for u in seen_urls}] *)
Definition seen_domains (seen : gset str) : gset str := set_map domain seen.

(** The two [continue] tests of the loop body, negated. *)
Definition accepts (seen : gset str) (r : record) : bool :=
  if bool_decide (url r ∈ seen)
     || bool_decide (domain (url r) ∈ seen_domains seen)
  then false
  else if len (paragraph r) <? MIN_PARAGRAPH_LEN then false
  else true.

(** [main], from the list [build_generators()] returns on; [goal] is
    [args.n]. *)
Definition main (goal : Z) (generators : list producer) : output :=
  let collected := collected (run accepts goal generators).1 in
  Output
    ([Obtained (len collected) goal; Saved]
     ++ (if len collected <? goal then [NotReached] else []))
    collected.

End DomainAware.

End V2.

(** ** The variants, for statements that hold of all three *)

Inductive variant :=
| Original                                      (* generate_spanish_paragraphs.py *)
| Fixed                                         (* generate_spanish_paragraphs_fixed.py *)
| DomainAware (domain : str → str) (goal : Z).  (* generate_spanish_paragraphs_v2.py --n goal *)

Definition gate_of (v : variant) : gset str → record → bool :=
  match v with
  | Original | Fixed => V1.accepts
  | DomainAware domain _ => V2.accepts domain
  end.

Definition quota_of (v : variant) : Z :=
  match v with
  | Original => 100
  | Fixed => 1000
  | DomainAware _ goal => goal
  end.

Definition main_of (v : variant) (generators : list producer) : output :=
  match v with
  | Original => V1.main generators
  | Fixed => V1.main_fixed generators
  | DomainAware domain goal => V2.main domain goal generators
  end.

(** The loop of [main] in variant [v]. *)
Definition run_of (v : variant) (generators : list producer) : state * status :=
  run (gate_of v) (quota_of v) generators.

(** The line that tells the user that the quota was not met. *)
Definition warning_of (v : variant) (achieved : Z) : message :=
  match v with
  | Original | Fixed => OnlyCollected achieved
  | DomainAware _ _ => NotReached
  end.


(** * Notions used in the statements *)

(** ** The states of a run *)

(** The states [main] can be in between two steps: at the start, after
    calling a producer, after the body has handled a pulled record. *)
Inductive reach (gate : gset str → record → bool) (goal : Z) : state → Prop :=
| reach_init : reach gate goal init
| reach_consult st : reach gate goal st → reach gate goal (consult st)
| reach_record st r :
    reach gate goal st → reach gate goal (body gate goal (pull st r) r).1.


Definition stopped_by (x : option exn) : bool :=
  match x with Some StopIteration => true | _ => false end.

Definition quota_reached (s : status) : bool :=
  match s with QuotaReached => true | SourcesExhausted => false end.

(** How a run is left when it started below the quota: stopped with the
    quota filled by the record pulled last, or not stopped and below. *)
Definition left_at_quota (goal : Z) (st : state) (stopped : bool) : Prop :=
  if stopped
  then len (collected st) = goal
       ∧ ∃ r, last (log st) = Some (Pull r) ∧ last (collected st) = Some r
  else len (collected st) < goal.


(** ** The tests, in words *)

(** The test of each program in words: the address is new and the text has
    more than 20 words; or the address is new, no address seen has its
    domain, and the text has [MIN_PARAGRAPH_LEN] characters. *)
Definition fits (v : variant) (seen : gset str) (r : record) : Prop :=
  match v with
  | Original | Fixed =>
      (url r ∉ seen) ∧ (20 < V1.word_count (paragraph r))
  | DomainAware domain _ =>
      (url r ∉ seen) ∧ (∀ u, u ∈ seen → domain u ≠ domain (url r))
      ∧ (MIN_PARAGRAPH_LEN ≤ len (paragraph r))
  end.

(** What is asked of the text alone. *)
Definition text_fits (v : variant) (r : record) : Prop :=
  match v with
  | Original | Fixed => 20 < V1.word_count (paragraph r)
  | DomainAware _ _ => MIN_PARAGRAPH_LEN ≤ len (paragraph r)
  end.


(** ** The text extractor of the specification *)


(** The text extractor in the words of its specification: the text is cut
    at every run of two or more newlines, that is at one or more lines
    that hold a newline and nothing else; [in_boundary] tells that the
    newline before was part of such a run. *)
Fixpoint spec_blocks_from (in_boundary : bool) (cur : str) (s : str) : list str :=
  match s with
  | [] => [rev cur]
  | c :: s' =>
      if (c =? nl)%N then
        if in_boundary then spec_blocks_from true cur s'
        else
          match s' with
          | c' :: _ =>
              if (c' =? nl)%N then rev cur :: spec_blocks_from true [] s'
              else spec_blocks_from false (c :: cur) s'
          | [] => spec_blocks_from false (c :: cur) s'
          end
      else spec_blocks_from false (c :: cur) s'
  end.

Definition spec_blocks (s : str) : list str := spec_blocks_from false [] s.

(** The first block whose trimmed length is at least [min_len], trimmed;
    none when no block qualifies. *)
Fixpoint first_qualifying (blocks : list str) (min_len : Z) : option str :=
  match blocks with
  | [] => None
  | b :: rest =>
      if min_len <=? len (strip b) then Some (strip b)
      else first_qualifying rest min_len
  end.

Definition extract_first_paragraph_spec (raw_text : str) (min_len : Z) : option str :=
  first_qualifying (spec_blocks raw_text) min_len.

(** The empty string stands for none. *)
Definition or_empty (o : option str) : str := default [] o.

(** A separator of [re.split(r"\n\s*\n", _)]: a newline, whitespace, a
    newline. *)
Definition boundary (sep : str) : Prop :=
  ∃ ws, sep = nl :: ws ++ [nl] ∧ Forall (λ c, is_space c = true) ws.

Definition has_boundary (b : str) : Prop :=
  ∃ p sep q, b = p ++ sep ++ q ∧ boundary sep.

(** [cut_at text blocks]: the text is the blocks with a separator between
    each two, and after a separator no newline comes before the first
    character that is not whitespace (the separator is as long as the
    greedy star makes it). *)
Inductive cut_at : str → list str → Prop :=
| cut_last b : cut_at b [b]
| cut_more b sep rest blocks :
    boundary sep → match_ws_nl rest = None → cut_at rest blocks →
    cut_at (b ++ sep ++ rest) (b :: blocks).


(** [result] is the first of [blocks] that has [min_len] characters once
    trimmed, trimmed; or it is empty and no block has. *)
Definition first_block_of (blocks : list str) (min_len : Z) (result : str) : Prop :=
  (∃ pre b post, blocks = pre ++ b :: post
     ∧ Forall (λ x, len (strip x) < min_len) pre
     ∧ min_len ≤ len (strip b) ∧ result = strip b)
  ∨ (Forall (λ x, len (strip x) < min_len) blocks ∧ result = []).


(** ** Sample data for the examples *)

(** A paragraph of 135 characters and 21 words. *)
Definition long_text : str :=
  py "This is a sufficiently long paragraph text exceeding one hundred twenty characters in total length to pass the minimum threshold check.".

Definition rec_a : record := Rec long_text (py "noticia") (py "https://a.example/1").
Definition rec_b : record := Rec long_text (py "blog") (py "https://b.example/2").

(** A paragraph of 120 characters in one word: 120 times the letter x. *)
Definition one_word : record :=
  Rec (replicate 120 120%N) (py "noticia") (py "https://c.example/3").

(** A stand-in for [tldextract]: every address is its own domain. *)
Definition whole_url (u : str) : str := u.

(** The producers of the scenarios of the specification: a feed with two
    long items at distinct addresses, a feed whose item is too short, a feed
    whose items all failed to load, and, for the scenario of exhaustion, a
    feed that repeats an address and a source that raises after one
    record. *)
Definition short_item : record :=
  Rec (py "Too short.") (py "blog") (py "https://d.example/4").
Definition rec_e : record := Rec long_text (py "cuento") (py "https://e.example/5").

Definition feed_of_two : producer := Producer [rec_a; rec_b] None.
Definition feed_of_short : producer := Producer [short_item] None.
Definition feed_of_failures : producer := Producer [] None.
Definition feed_of_repeats : producer := Producer [rec_a; short_item] None.
Definition source_that_breaks : producer := Producer [rec_e] (Some RequestException).

(** Two lines of 70 characters each, with no blank line between them. *)
Definition two_lines : str := replicate 70 120%N ++ [nl] ++ replicate 70 121%N.

(** The input of property P5 of the specification. *)
Definition p5_input : str := py "short" ++ [nl; nl] ++ long_text.


(** ** Sample sites *)

(** A site that answers every request with status 200 and a page whose only
    paragraph is the word "corto". *)
Definition short_page_world : world :=
  World (λ u, Return (Response 200 (py "<p>corto</p>") u))
        (λ _, [])
        (λ _, [py "corto"])
        (λ _, Raise ValueError).

Definition quijote_url : str :=
  py "https://www.cervantesvirtual.com/obra-visor/don-quijote-de-la-mancha--0/html/".

Definition gallina_url : str :=
  py "https://es.wikisource.org/wiki/La_gallina_de_los_huevos_de_oro".


(** A feed with one entry whose link is a short address; the site answers
    it, after a redirect, from the address of the article. *)
Definition short_link : str := py "https://feed.example/r/42".
Definition article_url : str := py "https://news.example/2024/article.html".

Definition redirecting_world : world :=
  World (λ u, Return (Response 200 (py "<p>...</p>") article_url))
        (λ _, [Some short_link])
        (λ _, [long_text])
        (λ _, Raise ValueError).


(** * More of the programs, and the notions used for them *)

(** The records pulled so far, in order, as the log has them. *)
Definition pulls (l : list event) : list record :=
  omap (λ ev, match ev with Pull r => Some r | Consult => None end) l.

(** How many producers were called so far. *)
Definition consults (l : list event) : nat :=
  length (omap (λ ev, match ev with Consult => Some tt | Pull _ => None end) l).

(** Everything the producers would yield if all were drained, in order. *)
Definition all_yields (gens : list producer) : list record :=
  concat (yields <$> gens).

(** What two records must not share to be both saved: the address, and in
    the domain-aware program the domain of the address. *)
Definition key_of (v : variant) (r : record) : str :=
  match v with
  | Original | Fixed => url r
  | DomainAware domain _ => domain (url r)
  end.

(** What the seen addresses must hold for a record to be refused as a
    duplicate: its address, or an address of its domain. *)
Definition covered (v : variant) (seen : gset str) (r : record) : Prop :=
  match v with
  | Original | Fixed => url r ∈ seen
  | DomainAware domain _ => ∃ u, u ∈ seen ∧ domain u = domain (url r)
  end.

(** The space character. *)
Definition sp : char := 32%N.

(** [re.sub(r"\s+", " ", s)]: every maximal run of whitespace becomes one
    space.  [in_run] tells that the character before was whitespace, so
    that the run it is in has given its space already. *)
Fixpoint sub_spaces (in_run : bool) (s : str) : str :=
  match s with
  | [] => []
  | c :: s' =>
      if is_space c then
        if in_run then sub_spaces true s' else sp :: sub_spaces true s'
      else c :: sub_spaces false s'
  end.

(** [clean_html], the same in the three programs; [get_text] is what
    [BeautifulSoup(raw_html, "html.parser").get_text(separator=" ", strip=True)]
    gives for [raw_html]. *)
Definition clean_html (get_text : str → str) (raw_html : str) : str :=
  strip (sub_spaces false (get_text raw_html)).

(** A word as [split()] gives them: not empty, no whitespace in it. *)
Definition word_ok (w : str) : Prop :=
  w ≠ [] ∧ Forall (λ c, is_space c = false) w.

(** A text in which whitespace is single spaces between words. *)
Definition tidy (p : str) : Prop :=
  (∀ c, c ∈ p → is_space c = true → c = sp)
  ∧ (p = [] ∨ ∃ a b, head p = Some a ∧ last p = Some b
                     ∧ is_space a = false ∧ is_space b = false).

(** The text holds two closing braces in a row. *)
Definition has_close (s : str) : Prop :=
  ∃ p q, s = p ++ V2.rbrace :: V2.rbrace :: q.

(** A template [{{...}}] begins at the head of the text. *)
Definition template_at_head (s : str) : Prop :=
  ∃ t, s = V2.lbrace :: V2.lbrace :: t ∧ has_close t.

(** What every text an extractor returns is like: empty or of [min_len]
    characters, and with no whitespace at either end. *)
Definition extracted (min_len : Z) (p : str) : Prop :=
  (p = [] ∨ min_len ≤ len p) ∧ strip p = p.

(** The two addresses [paragraph_from_gutenberg] of
    [generate_spanish_paragraphs_v2.py] tries for a book, in order. *)
Definition cache_url (gid : N) : str :=
  py "https://www.gutenberg.org/cache/epub/" ++ str_of_N gid
    ++ py "/pg" ++ str_of_N gid ++ py ".txt".
Definition files_url (gid : N) : str :=
  py "https://www.gutenberg.org/files/" ++ str_of_N gid
    ++ py "/" ++ str_of_N gid ++ py "-0.txt".

(** A site for the examples: the cache of Gutenberg answers 404, the
    other addresses answer with a long text; a feed has one entry, and the
    summary of Wikipedia has a text and no address. *)
Definition mirror_world : world :=
  World (λ u, if bool_decide (u = cache_url 2000)
              then Return (Response 404 [] u)
              else Return (Response 200 long_text u))
        (λ _, [None; Some []; Some short_link])
        (λ _, [long_text])
        (λ _, Return (long_text, [])).

(** What a feed producer yields: the label of the feed, an address and a
    text that are not empty, the text as the extractor returns them. *)
Definition feed_record (tipo0 : str) (r : record) : Prop :=
  tipo r = tipo0 ∧ url r ≠ [] ∧ paragraph r ≠ []
  ∧ extracted 120 (paragraph r).

(** The address [random_wikipedia_paragraph] asks, in the three programs. *)
Definition WIKIPEDIA_API : str :=
  py "https://es.wikipedia.org/api/rest_v1/page/random/summary".

(** The labels of the rows of [generate_spanish_paragraphs_v2.py]. *)
Definition V2_LABELS : list str :=
  [py "noticia"; py "blog"; py "novela"; py "cuento"; py "enciclopedia"].

(** The labels of the rows of [generate_spanish_paragraphs.py] and of its
    [_fixed] copy, over the feeds [rss_sources]. *)
Definition V1_LABELS (rss_sources : list (str * list str)) : list str :=
  (fst <$> rss_sources) ++ [py "enciclopedia"; py "novela"; py "cuento"].


(** * Properties *)

(** ** Lists and lengths *)

Lemma len_snoc {A} (l : list A) (x : A) : len (l ++ [x]) = len l + 1.
Proof. unfold len. rewrite length_app. simpl. lia. Qed.

Lemma len_nonneg {A} (l : list A) : 0 ≤ len l.
Proof. unfold len. lia. Qed.

Lemma snoc_neq {A} (l : list A) (x : A) : l ++ [x] ≠ l.
Proof.
  intros H. apply (f_equal length) in H. rewrite length_app in H.
  simpl in H. lia.
Qed.


Lemma elem_of_rev {A} (x : A) (l : list A) : x ∈ rev l ↔ x ∈ l.
Proof. rewrite !list_elem_of_In. symmetry. apply in_rev. Qed.


Lemma elem_of_concat_yields (g : producer) (r : record) (gens : list producer) :
  g ∈ gens → r ∈ yields g → r ∈ concat (yields <$> gens).
Proof.
  intros Hg Hr. induction gens as [|g' gens IH]; simpl.
  - by apply elem_of_nil in Hg.
  - apply elem_of_app. apply elem_of_cons in Hg as [<-|Hg]; auto.
Qed.

Lemma find_app_first {A} (f : A → bool) (l1 l2 : list A) :
  find f (l1 ++ l2) =
  match find f l1 with Some x => Some x | None => find f l2 end.
Proof. induction l1 as [|x l1 IH]; simpl; [done|]. by destruct (f x). Qed.

Lemma find_same_test {A} (f g : A → bool) (l : list A) :
  (∀ x, f x = g x) → find f l = find g l.
Proof.
  intros H. induction l as [|x l IH]; simpl; [done|]. by rewrite H, IH.
Qed.

Lemma find_misses {A} (f : A → bool) (l : list A) (x : A) :
  find f l = None → x ∈ l → f x = false.
Proof.
  induction l as [|y l IH]; simpl; [by intros _ ?%elem_of_nil|].
  destruct (f y) eqn:Hy; [done|].
  intros Hl [->|Hin]%elem_of_cons; auto.
Qed.


(** ** The loop, whatever the test and the quota *)

Section LoopFacts.

Variable gate : gset str → record → bool.
Variable goal : Z.

Lemma body_accepted st r :
  gate (seen_urls st) r = true →
  body gate goal st r = (accept st r, bool_decide (goal ≤ len (collected st ++ [r]))).
Proof. intros H. unfold body. by rewrite H. Qed.

Lemma body_rejected st r :
  gate (seen_urls st) r = false → body gate goal st r = (st, false).
Proof. intros H. unfold body. by rewrite H. Qed.

Lemma drain_reach st rs e : reach gate goal st → reach gate goal (drain gate goal st rs e).1.
Proof.
  revert st. induction rs as [|r rs IH]; intros st Hst; simpl; [done|].
  pose proof (reach_record gate goal st r Hst) as Hr.
  destruct (body gate goal (pull st r) r) as [st' stop]; simpl in Hr.
  destruct stop; simpl; auto.
Qed.

Lemma collect_reach st gens : reach gate goal st → reach gate goal (collect gate goal st gens).1.
Proof.
  revert st. induction gens as [|g gens IH]; intros st Hst; simpl; [done|].
  pose proof (drain_reach (consult st) (yields g) (ending g)
                (reach_consult gate goal _ Hst)) as Hd.
  destruct (drain gate goal (consult st) (yields g) (ending g)) as [st' [[|f]|]];
    simpl in *; auto.
Qed.

Lemma run_reach gens : reach gate goal (run gate goal gens).1.
Proof. apply collect_reach, reach_init. Qed.

(** The set of seen addresses is the set of the addresses collected. *)
Lemma reach_seen st :
  reach gate goal st → seen_urls st = list_to_set (url <$> collected st).
Proof.
  induction 1 as [|st _ IH|st r _ IH]; simpl; [done..|].
  unfold body; simpl. destruct (gate (seen_urls st) r); simpl; [|done].
  rewrite fmap_app, list_to_set_app_L, IH. simpl.
  rewrite (right_id_L ∅ (∪)). apply (comm_L (∪)).
Qed.

(** A test that refuses seen addresses keeps the addresses distinct. *)
Lemma reach_nodup st :
  (∀ seen r, gate seen r = true → url r ∉ seen) →
  reach gate goal st → NoDup (url <$> collected st).
Proof.
  intros Hfresh Hst. induction Hst as [|st _ IH|st r Hst IH]; simpl.
  - constructor.
  - done.
  - unfold body; simpl.
    destruct (gate (seen_urls st) r) eqn:Hg; simpl; [|done].
    rewrite fmap_app. apply NoDup_app. split; [done|]. split.
    + intros u Hu Hin. apply list_elem_of_singleton in Hin. subst u.
      apply Hfresh in Hg. rewrite (reach_seen st Hst) in Hg.
      apply Hg. by apply elem_of_list_to_set.
    + apply NoDup_singleton.
Qed.

(** Every collected record passed the test when it was pulled. *)
Lemma reach_passed (P : record → Prop) st :
  (∀ seen r, gate seen r = true → P r) →
  reach gate goal st → Forall P (collected st).
Proof.
  intros HP Hst. induction Hst as [|st _ IH|st r Hst IH]; simpl.
  - constructor.
  - done.
  - unfold body; simpl.
    destruct (gate (seen_urls st) r) eqn:Hg; simpl; [|done].
    apply Forall_app. split; [done|]. constructor; [by eapply HP|constructor].
Qed.

(** *** Faults *)


Lemma drain_no_fault st rs st' f :
  drain gate goal st rs None ≠ (st', Some (Fault f)).
Proof.
  revert st. induction rs as [|r rs IH]; intros st; simpl; [done|].
  destruct (body gate goal (pull st r) r) as [st'' [|]]; [done|apply IH].
Qed.







(** *** The quota *)




(** When the body stops the run below a positive quota, the record just
    pulled is the last one collected and fills the quota. *)
Lemma body_stops st r st' :
  body gate goal st r = (st', true) → len (collected st) < goal →
  len (collected st') = goal ∧ last (collected st') = Some r
  ∧ log st' = log st.
Proof.
  unfold body. destruct (gate (seen_urls st) r); [|done].
  intros [= <- Hstop] Hlt. simpl.
  apply bool_decide_eq_true in Hstop. simpl in Hstop.
  rewrite len_snoc in *. rewrite last_snoc. split_and!; [lia|done..].
Qed.

Lemma body_below_lt st r st' :
  body gate goal st r = (st', false) → len (collected st) < goal →
  len (collected st') < goal.
Proof.
  unfold body. destruct (gate (seen_urls st) r).
  - intros [= <- Hstop] _. simpl.
    apply bool_decide_eq_false in Hstop. simpl in Hstop. lia.
  - by intros [= <-].
Qed.

Lemma drain_quota st rs e st' x :
  drain gate goal st rs e = (st', x) → len (collected st) < goal →
  left_at_quota goal st' (stopped_by x).
Proof.
  revert st. induction rs as [|r rs IH]; intros st; simpl.
  - intros [= <- <-] Hlt. by destruct e.
  - destruct (body gate goal (pull st r) r) as [st1 [|]] eqn:Hb.
    + intros [= <- <-] Hlt. simpl.
      destruct (body_stops _ _ _ Hb Hlt) as (Hlen & Hlast & Hlog).
      split; [done|]. exists r. split; [|done].
      rewrite Hlog. simpl. apply last_snoc.
    + intros Hd Hlt. eapply IH; [exact Hd|].
      by eapply (body_below_lt _ _ _ Hb).
Qed.

Lemma collect_quota st gens st' s :
  collect gate goal st gens = (st', s) → len (collected st) < goal →
  left_at_quota goal st' (quota_reached s).
Proof.
  revert st. induction gens as [|g gens IH]; intros st; simpl.
  - by intros [= <- <-].
  - destruct (drain gate goal (consult st) (yields g) (ending g))
      as [st1 x] eqn:Hd.
    intros Hc Hlt. pose proof (drain_quota _ _ _ _ _ Hd Hlt) as Hq.
    destruct x as [[|f]|]; simpl in Hq.
    + by injection Hc as <- <-.
    + by eapply IH.
    + by eapply IH.
Qed.

End LoopFacts.

(** ** The tests of the variants *)

Lemma v1_accepts_iff seen r :
  V1.accepts seen r = true ↔
  (url r ∉ seen) ∧ (20 < V1.word_count (paragraph r)).
Proof.
  unfold V1.accepts. rewrite andb_true_iff, bool_decide_eq_true, Z.ltb_lt. done.
Qed.

Lemma v2_accepts_iff domain seen r :
  V2.accepts domain seen r = true ↔
  (url r ∉ seen) ∧ (domain (url r) ∉ V2.seen_domains domain seen)
  ∧ (MIN_PARAGRAPH_LEN ≤ len (paragraph r)).
Proof.
  unfold V2.accepts.
  destruct (bool_decide (url r ∈ seen)) eqn:Hu; simpl.
  { apply bool_decide_eq_true in Hu. split; [done|]. by intros [? _]. }
  apply bool_decide_eq_false in Hu.
  destruct (bool_decide (domain (url r) ∈ V2.seen_domains domain seen)) eqn:Hd.
  { apply bool_decide_eq_true in Hd. split; [done|]. by intros (_ & ? & _). }
  apply bool_decide_eq_false in Hd.
  destruct (len (paragraph r) <? MIN_PARAGRAPH_LEN) eqn:Hl.
  - apply Z.ltb_lt in Hl. split; [done|]. intros (_ & _ & ?). lia.
  - apply Z.ltb_ge in Hl. done.
Qed.

Lemma gate_of_fresh v seen r : gate_of v seen r = true → url r ∉ seen.
Proof.
  destruct v; simpl.
  - by intros [? _]%v1_accepts_iff.
  - by intros [? _]%v1_accepts_iff.
  - by intros [? _]%v2_accepts_iff.
Qed.

Lemma csv_main_of v gens : csv (main_of v gens) = collected (run_of v gens).1.
Proof. by destruct v. Qed.

(** In the domain-aware variant the domains of the collected addresses are
    distinct. *)
Lemma reach_nodup_domain domain goal st :
  reach (V2.accepts domain) goal st →
  NoDup ((domain ∘ url) <$> collected st).
Proof.
  intros Hst. induction Hst as [|st _ IH|st r Hst IH]; simpl.
  - constructor.
  - done.
  - unfold body; simpl.
    destruct (V2.accepts domain (seen_urls st) r) eqn:Hg; simpl; [|done].
    apply v2_accepts_iff in Hg as (_ & Hd & _).
    rewrite fmap_app. apply NoDup_app. split; [done|]. split.
    + intros d Hin Hd'. apply list_elem_of_singleton in Hd'. subst d.
      apply Hd. unfold V2.seen_domains. apply elem_of_map.
      apply list_elem_of_fmap in Hin as (r' & Heq & Hr').
      exists (url r'). split; [done|].
      rewrite (reach_seen _ _ st Hst). apply elem_of_list_to_set.
      by apply list_elem_of_fmap_2.
    + apply NoDup_singleton.
Qed.

(** ** Uniqueness of the sources *)

(** C2. Whatever the producers yield and in whatever order they come, the
    rows a run saves have pairwise distinct [url] values, in each of the
    three programs; in the domain-aware one the domains of these addresses
    are pairwise distinct too. *)
Theorem saved_sources_are_distinct (v : variant) (generators : list producer) :
  NoDup (url <$> csv (main_of v generators))
  ∧ match v with
    | DomainAware domain _ =>
        NoDup ((domain ∘ url) <$> csv (main_of v generators))
    | _ => True
    end.
Proof.
  rewrite csv_main_of. split.
  - eapply reach_nodup; [apply gate_of_fresh|apply run_reach].
  - destruct v as [| |domain goal]; [done..|].
    eapply reach_nodup_domain, run_reach.
Qed.

(** ** The log is a ghost: it does not steer the run *)


Section Ghost.

Variable gate : gset str → record → bool.
Variable goal : Z.






End Ghost.



(** ** The deduplicator *)

(** C9. The states a run passes through are reachable ([run_reach], and
    [drain_reach] and [collect_reach] for the loops inside).  In every
    reachable state [seen_urls] is exactly the set of the [url] values of
    [collected].  Handling one more record either refuses it and leaves
    both unchanged, or changes [seen_urls], and then the record was appended
    and its address is what was added. *)
Theorem seen_urls_follow_collected (v : variant) :
  (∀ generators, reach (gate_of v) (quota_of v) (run_of v generators).1)
  ∧ ∀ st, reach (gate_of v) (quota_of v) st →
      seen_urls st = list_to_set (url <$> collected st)
      ∧ ∀ r, let st' := (body (gate_of v) (quota_of v) (pull st r) r).1 in
          (gate_of v (seen_urls st) r = false →
             seen_urls st' = seen_urls st ∧ collected st' = collected st)
          ∧ (seen_urls st' ≠ seen_urls st →
             collected st' = collected st ++ [r]
             ∧ seen_urls st' = {[url r]} ∪ seen_urls st).
Proof.
  split; [intros; apply run_reach|].
  intros st Hst. split; [by eapply reach_seen|].
  intros r st'. subst st'. unfold body; simpl.
  destruct (gate_of v (seen_urls st) r); simpl; [|done].
  split; [done|]. done.
Qed.

Lemma seen_urls_follow_collected_witness :
  let st := (body V1.accepts 100 (pull init rec_a) rec_a).1 in
  seen_urls st = list_to_set (url <$> collected st)
  ∧ collected st = [rec_a].
Proof.
  intros st. split; [|reflexivity].
  apply (proj2 (seen_urls_follow_collected Original) st).
  apply (reach_record V1.accepts 100 init rec_a), reach_init.
Defined.

(** ** The quota *)

(** C1 fails for a quota of zero.  The run of
    [generate_spanish_paragraphs_v2.py --n 0] over one producer with one
    long enough record: the record is collected and saved, one row for a
    quota of zero, and the producer was called and pulled from although the
    size was equal to the quota from the start. *)
Lemma zero_quota_run_collects_one_record :
  V2.main whole_url 0 [Producer [rec_a] None]
    = Output [Obtained 1 0; Saved] [rec_a]
  ∧ ¬ len (csv (V2.main whole_url 0 [Producer [rec_a] None])) ≤ 0
  ∧ log (run (V2.accepts whole_url) 0 [Producer [rec_a] None]).1
    = [Consult; Pull rec_a].
Proof. split_and!; [reflexivity|by vm_compute|reflexivity]. Qed.

(** C1, amended: for a positive quota, as are the constants 100 and 1000
    of the other two programs.  The rows never outnumber the quota.  A run
    that stops on
    quota holds exactly that many rows, and the last thing it did to a
    producer was to pull the record it collected last: nothing is pulled and
    no producer is called after the quota is filled.  A run that ends for
    lack of producers holds fewer rows than the quota. *)
Theorem positive_quota_is_met_exactly (v : variant) (generators : list producer) :
  0 < quota_of v →
  let st := (run_of v generators).1 in
  len (collected st) ≤ quota_of v
  ∧ match (run_of v generators).2 with
    | QuotaReached =>
        len (collected st) = quota_of v
        ∧ ∃ r, last (log st) = Some (Pull r) ∧ last (collected st) = Some r
    | SourcesExhausted => len (collected st) < quota_of v
    end.
Proof.
  intros Hpos st. subst st.
  destruct (run_of v generators) as [st s] eqn:Hrun.
  apply collect_quota in Hrun; [|done]. simpl.
  destruct s; simpl in Hrun.
  - split; [lia|done].
  - split; [lia|done].
Qed.

Lemma positive_quota_is_met_exactly_witness :
  let st := (run_of (DomainAware whole_url 1) [Producer [rec_a; rec_b] None]).1 in
  0 < 1 ∧ len (collected st) ≤ 1 ∧ log st = [Consult; Pull rec_a].
Proof.
  split; [lia|]. split; [|reflexivity].
  apply (positive_quota_is_met_exactly (DomainAware whole_url 1)
           [Producer [rec_a; rec_b] None]).
  simpl. lia.
Defined.


(** ** A quota of zero or less *)

Section NoQuota.

Variable gate : gset str → record → bool.
Variable goal : Z.
Hypothesis goal_nonpos : goal ≤ 0.

(** With nothing collected yet, the inner loop takes the first record
    that passes the test and stops. *)
Lemma drain_takes_first st rs e :
  collected st = [] →
  match find (gate (seen_urls st)) rs with
  | Some r =>
      collected (drain gate goal st rs e).1 = [r]
      ∧ (drain gate goal st rs e).2 = Some StopIteration
  | None =>
      collected (drain gate goal st rs e).1 = []
      ∧ seen_urls (drain gate goal st rs e).1 = seen_urls st
      ∧ (drain gate goal st rs e).2 = Fault <$> e
  end.
Proof.
  revert st. induction rs as [|r rs IH]; intros st Hnil; simpl; [done|].
  unfold body; simpl. destruct (gate (seen_urls st) r) eqn:Hg; simpl.
  - rewrite bool_decide_eq_true_2 by (pose proof (len_nonneg (collected st ++ [r])); lia).
    simpl. by rewrite Hnil.
  - specialize (IH (pull st r) Hnil). simpl in IH. exact IH.
Qed.

Lemma collect_takes_first st gens :
  collected st = [] →
  match find (gate (seen_urls st)) (concat (yields <$> gens)) with
  | Some r =>
      collected (collect gate goal st gens).1 = [r]
      ∧ (collect gate goal st gens).2 = QuotaReached
  | None =>
      collected (collect gate goal st gens).1 = []
      ∧ (collect gate goal st gens).2 = SourcesExhausted
  end.
Proof.
  revert st. induction gens as [|g gens IH]; intros st Hnil; simpl; [done|].
  rewrite find_app_first.
  pose proof (drain_takes_first (consult st) (yields g) (ending g) Hnil) as Hd.
  simpl in Hd.
  destruct (find (gate (seen_urls st)) (yields g)) as [r|].
  - destruct (drain gate goal (consult st) (yields g) (ending g)) as [st' x].
    simpl in Hd. destruct Hd as [Hc ->]. done.
  - destruct (drain gate goal (consult st) (yields g) (ending g)) as [st' x].
    simpl in Hd. destruct Hd as (Hc & Hs & ->).
    specialize (IH st' Hc). rewrite Hs in IH.
    by destruct (ending g).
Qed.

End NoQuota.

(** With no address seen yet, the domain-aware test is the length test. *)
Lemma v2_accepts_empty domain r :
  V2.accepts domain ∅ r = bool_decide (MIN_PARAGRAPH_LEN ≤ len (paragraph r)).
Proof.
  destruct (V2.accepts domain ∅ r) eqn:Hg; symmetry.
  - apply v2_accepts_iff in Hg as (_ & _ & ?). by apply bool_decide_eq_true_2.
  - apply bool_decide_eq_false_2. intros Hlen.
    assert (V2.accepts domain ∅ r = true) as Ht; [|congruence].
    apply v2_accepts_iff. split_and!; [set_solver| |done].
    unfold V2.seen_domains. rewrite set_map_empty. set_solver.
Qed.

(** C10 fails for [goal = -1]: one row is saved, two more than the quota,
    so the size does not exceed the quota by one. *)
Lemma negative_quota_exceeded_by_more_than_one :
  let out := V2.main whole_url (-1) [Producer [rec_a; rec_b] None] in
  MIN_PARAGRAPH_LEN ≤ len (paragraph rec_a)
  ∧ csv out = [rec_a]
  ∧ len (csv out) ≠ -1 + 1.
Proof. vm_compute. split_and!; [discriminate|reflexivity|discriminate]. Qed.

(** C10, amended. In the domain-aware program with a quota of zero or
    less, if some producer yields a record of at least [MIN_PARAGRAPH_LEN]
    characters, then the run stops on quota with exactly one row, the first
    such record in the order of the producers; the row count is then above
    the quota, by [1 - goal], which is one only for a quota of zero. *)
Theorem nonpositive_quota_takes_one_record
    (domain : str → str) (goal : Z) (generators : list producer) :
  goal ≤ 0 →
  (∃ g r, g ∈ generators ∧ r ∈ yields g
          ∧ MIN_PARAGRAPH_LEN ≤ len (paragraph r)) →
  ∃ r, find (λ r, bool_decide (MIN_PARAGRAPH_LEN ≤ len (paragraph r)))
         (concat (yields <$> generators)) = Some r
     ∧ csv (V2.main domain goal generators) = [r]
     ∧ (run (V2.accepts domain) goal generators).2 = QuotaReached
     ∧ len (csv (V2.main domain goal generators)) = 1
     ∧ goal < len (csv (V2.main domain goal generators))
     ∧ (len (csv (V2.main domain goal generators)) = goal + 1 ↔ goal = 0).
Proof.
  intros Hgoal (g & r & Hg & Hr & Hlen).
  pose proof (collect_takes_first (V2.accepts domain) goal Hgoal init
                generators eq_refl) as H.
  simpl in H.
  rewrite (find_same_test _
             (λ r, bool_decide (MIN_PARAGRAPH_LEN ≤ len (paragraph r))))
    in H by (intros; apply v2_accepts_empty).
  destruct (find _ (concat (yields <$> generators))) as [r0|] eqn:Hfind.
  - destruct H as [Hc Hs]. exists r0.
    change (csv (V2.main domain goal generators))
      with (collected (run (V2.accepts domain) goal generators).1).
    unfold run. rewrite Hc. split_and!; [done..| |].
    + unfold len; simpl. lia.
    + unfold len; simpl. lia.
  - exfalso. apply (find_misses _ _ r) in Hfind.
    + apply bool_decide_eq_false in Hfind. exact (Hfind Hlen).
    + by eapply elem_of_concat_yields.
Qed.

Lemma nonpositive_quota_takes_one_record_witness :
  -1 ≤ 0
  ∧ csv (V2.main whole_url (-1) [Producer [rec_a; rec_b] None]) = [rec_a].
Proof.
  split; [lia|].
  destruct (nonpositive_quota_takes_one_record whole_url (-1)
              [Producer [rec_a; rec_b] None]) as (r & Hfind & Hcsv & _).
  - lia.
  - exists (Producer [rec_a; rec_b] None), rec_a.
    split_and!; [apply list_elem_of_here..|].
    vm_compute. discriminate.
  - rewrite Hcsv. vm_compute in Hfind. by injection Hfind as <-.
Defined.

(** ** Which records are accepted *)

(** C3 fails in [generate_spanish_paragraphs.py]: a record of 120
    characters with an address not seen before is pulled and not collected;
    its text is one word, and the test counts words. *)
Lemma long_single_word_is_refused :
  (url one_word ∉ seen_urls init)
  ∧ MIN_PARAGRAPH_LEN ≤ len (paragraph one_word)
  ∧ collected (body V1.accepts 100 (pull init one_word) one_word).1 = []
  ∧ log (run V1.accepts 100 [Producer [one_word] None]).1
    = [Consult; Pull one_word]
  ∧ csv (V1.main [Producer [one_word] None]) = [].
Proof.
  split; [set_solver|].
  split; [vm_compute; discriminate|].
  split_and!; reflexivity.
Qed.


Lemma seen_domains_spec (domain : str → str) (seen : gset str) (d : str) :
  d ∉ V2.seen_domains domain seen ↔ ∀ u, u ∈ seen → domain u ≠ d.
Proof.
  unfold V2.seen_domains. rewrite elem_of_map. split.
  - intros H u Hu Heq. apply H. by exists u.
  - intros H (u & -> & Hu). by apply (H u).
Qed.

Lemma gate_of_fits v seen r : gate_of v seen r = true ↔ fits v seen r.
Proof.
  destruct v; simpl; [apply v1_accepts_iff..|].
  rewrite v2_accepts_iff. by rewrite seen_domains_spec.
Qed.


(** C3, amended. A pulled record is appended to [collected], and its
    address added to [seen_urls], exactly when: in the domain-aware program
    its address and the domain of its address are new and its text has at
    least [MIN_PARAGRAPH_LEN] characters; in the other two programs its
    address is new and its text has more than 20 words.  Otherwise both
    are left as they were.  Hence every row saved passes the test on the
    text of its program. *)
Theorem record_accepted_iff_it_fits (v : variant) (st : state) (r : record) :
  let st' := (body (gate_of v) (quota_of v) (pull st r) r).1 in
  (collected st' = collected st ++ [r]
     ∧ seen_urls st' = {[url r]} ∪ seen_urls st
   ↔ fits v (seen_urls st) r)
  ∧ (collected st' = collected st ∧ seen_urls st' = seen_urls st
     ↔ ¬ fits v (seen_urls st) r)
  ∧ ∀ generators, Forall (text_fits v) (csv (main_of v generators)).
Proof.
  intros st'. subst st'. rewrite <- gate_of_fits. unfold body; simpl.
  destruct (gate_of v (seen_urls st) r) eqn:Hg; simpl; split_and!.
  - done.
  - split; [|done]. intros [H _]. by apply snoc_neq in H.
  - intros gens. rewrite csv_main_of.
    eapply reach_passed; [|apply run_reach].
    intros seen r' H%gate_of_fits. destruct v; simpl in *; tauto.
  - split; [|done]. intros [H _]. symmetry in H. by apply snoc_neq in H.
  - done.
  - intros gens. rewrite csv_main_of.
    eapply reach_passed; [|apply run_reach].
    intros seen r' H%gate_of_fits. destruct v; simpl in *; tauto.
Qed.

Lemma record_accepted_iff_it_fits_witness :
  fits (DomainAware whole_url 5) (seen_urls init) rec_a
  ∧ collected (body (V2.accepts whole_url) 5 (pull init rec_a) rec_a).1
    = [rec_a]
  ∧ ¬ fits Original (seen_urls init) one_word
  ∧ collected (body V1.accepts 100 (pull init one_word) one_word).1 = [].
Proof.
  assert (fits (DomainAware whole_url 5) (seen_urls init) rec_a) as Hfit.
  { simpl. split_and!; [set_solver|set_solver|vm_compute; discriminate]. }
  assert (¬ fits Original (seen_urls init) one_word) as Hno.
  { simpl. intros [_ H]. vm_compute in H. discriminate. }
  split; [exact Hfit|]. split.
  - pose proof (record_accepted_iff_it_fits (DomainAware whole_url 5)
                  init rec_a) as (Hyes & _ & _).
    apply Hyes in Hfit as [Hc _]. exact Hc.
  - split; [exact Hno|].
    pose proof (record_accepted_iff_it_fits Original init one_word)
      as (_ & Hrej & _).
    apply Hrej in Hno as [Hc _]. exact Hc.
Defined.

(** ** The text extractor *)

(** A match of [\s*\n] leaves less text than it was given. *)
Lemma match_ws_nl_shorter s r :
  match_ws_nl s = Some r → (length r < length s)%nat.
Proof.
  revert r. induction s as [|c s IH]; intros r; simpl; [done|].
  destruct (is_space c); [|done].
  destruct (match_ws_nl s) as [r'|] eqn:E.
  - intros [= <-]. specialize (IH _ eq_refl). lia.
  - destruct (c =? nl)%N; [|done]. intros [= <-]. lia.
Qed.

Lemma first_long_first blocks m :
  (∃ pre b post, blocks = pre ++ b :: post
     ∧ Forall (λ x, len (strip x) < m) pre
     ∧ m ≤ len (strip b) ∧ first_long blocks m = strip b)
  ∨ (Forall (λ x, len (strip x) < m) blocks ∧ first_long blocks m = []).
Proof.
  induction blocks as [|b blocks IH]; simpl.
  - right. by split.
  - destruct (m <=? len (strip b)) eqn:Hb.
    + left. exists [], b, blocks. apply Z.leb_le in Hb. by split_and!.
    + apply Z.leb_gt in Hb.
      destruct IH as [(pre & b' & post & -> & Hpre & Hb' & Hres)|[Hall Hres]].
      * left. exists (b :: pre), b', post. split_and!; [done| |done..].
        by constructor.
      * right. split; [by constructor|done].
Qed.

(** Over the same blocks the loop of [first_long_paragraph] returns what
    the specification asks for, the first block that has [min_len]
    characters once trimmed, and the empty string where the specification
    has none. *)
Lemma first_long_qualifying blocks m :
  first_long blocks m = or_empty (first_qualifying blocks m).
Proof.
  induction blocks as [|b blocks IH]; simpl; [done|].
  by destruct (m <=? len (strip b)).
Qed.

(** *** Lines *)

Lemma split_nl_from_nonempty cur s : split_nl_from cur s ≠ [].
Proof.
  revert cur. induction s as [|c s IH]; intros cur; simpl; [done|].
  destruct (c =? nl)%N; [done|apply IH].
Qed.

Lemma join_cons sep b blocks :
  blocks ≠ [] → join sep (b :: blocks) = b ++ sep ++ join sep blocks.
Proof. by destruct blocks. Qed.

Lemma split_nl_from_join cur s :
  join [nl] (split_nl_from cur s) = rev cur ++ s.
Proof.
  revert cur. induction s as [|c s IH]; intros cur; simpl.
  - by rewrite app_nil_r.
  - destruct (c =? nl)%N eqn:Hc.
    + apply N.eqb_eq in Hc. subst c.
      rewrite join_cons by apply split_nl_from_nonempty.
      by rewrite IH.
    + rewrite IH. simpl. by rewrite <- app_assoc.
Qed.

Lemma split_nl_from_lines cur s :
  nl ∉ cur → Forall (λ b, nl ∉ b) (split_nl_from cur s).
Proof.
  revert cur. induction s as [|c s IH]; intros cur Hcur; simpl.
  - constructor; [|constructor]. by rewrite elem_of_rev.
  - destruct (c =? nl)%N eqn:Hc.
    + constructor; [by rewrite elem_of_rev|]. apply IH, not_elem_of_nil.
    + apply N.eqb_neq in Hc. apply IH. rewrite not_elem_of_cons. by split.
Qed.

(** *** Blank-line boundaries *)

Lemma re_split_from_nil cur : re_split_from cur [] = [rev cur].
Proof. by simp re_split_from. Qed.

Lemma re_split_from_cons cur c s' :
  re_split_from cur (c :: s') =
  match (if (c =? nl)%N then match_ws_nl s' else None) with
  | Some r => rev cur :: re_split_from [] r
  | None => re_split_from (c :: cur) s'
  end.
Proof.
  simp re_split_from.
  destruct (inspect (if (c =? nl)%N then match_ws_nl s' else None)) as [[r|] e];
    simp re_split_from; by rewrite e.
Qed.

(** A match of [\s*\n] is whitespace and a newline, and it is the longest. *)
Lemma match_ws_nl_some s r :
  match_ws_nl s = Some r →
  ∃ ws, s = ws ++ nl :: r ∧ Forall (λ c, is_space c = true) ws
        ∧ match_ws_nl r = None.
Proof.
  revert r. induction s as [|c s IH]; intros r; simpl; [done|].
  destruct (is_space c) eqn:Hc; [|done].
  destruct (match_ws_nl s) as [r'|] eqn:E.
  - intros [= <-]. destruct (IH _ eq_refl) as (ws & -> & Hws & Hr).
    exists (c :: ws). split_and!; [done|by constructor|done].
  - destruct (c =? nl)%N eqn:Hnl; [|done]. intros [= <-].
    apply N.eqb_eq in Hnl. subst c. by exists [].
Qed.

(** Where whitespace and a newline come first, [\s*\n] matches. *)
Lemma match_ws_nl_matches ws r :
  Forall (λ c, is_space c = true) ws → is_Some (match_ws_nl (ws ++ nl :: r)).
Proof.
  induction 1 as [|c ws Hc _ IH]; simpl.
  - destruct (match_ws_nl r); eauto.
  - rewrite Hc. destruct IH as [r' ->]. eauto.
Qed.

Lemma boundary_length sep : boundary sep → (2 ≤ length sep)%nat.
Proof. intros (ws & -> & _). simpl. rewrite length_app. simpl. lia. Qed.

Lemma re_split_from_cut n : ∀ s cur,
  (length s ≤ n)%nat → cut_at (rev cur ++ s) (re_split_from cur s).
Proof.
  induction n as [n IH] using lt_wf_ind. intros [|c s'] cur Hn.
  - rewrite re_split_from_nil, app_nil_r. constructor.
  - rewrite re_split_from_cons. simpl in Hn.
    destruct (if (c =? nl)%N then match_ws_nl s' else None) as [r|] eqn:E.
    + destruct (c =? nl)%N eqn:Hc; [|done].
      apply N.eqb_eq in Hc. subst c.
      pose proof (match_ws_nl_shorter _ _ E) as Hlen.
      apply match_ws_nl_some in E as (ws & -> & Hws & Hr).
      replace (rev cur ++ nl :: ws ++ nl :: r)
        with (rev cur ++ (nl :: ws ++ [nl]) ++ r)
        by (simpl; by rewrite <- app_assoc).
      constructor; [by exists ws|done|].
      apply (IH (length r) ltac:(lia) r [] ltac:(lia)).
    + replace (rev cur ++ c :: s') with (rev (c :: cur) ++ s')
        by (simpl; by rewrite <- app_assoc).
      apply (IH (length s') ltac:(lia)). lia.
Qed.

Lemma re_split_from_free n : ∀ s cur,
  (length s ≤ n)%nat →
  (∀ p sep q, rev cur ++ s = p ++ sep ++ q → boundary sep →
              (length cur ≤ length p)%nat) →
  Forall (λ b, ¬ has_boundary b) (re_split_from cur s).
Proof.
  induction n as [n IH] using lt_wf_ind. intros s cur Hn Hcur.
  assert (¬ has_boundary (rev cur)) as Hfirst.
  { intros (p & sep & q & Heq & Hsep).
    pose proof (boundary_length _ Hsep) as H2.
    specialize (Hcur p sep (q ++ s)).
    rewrite Heq in Hcur. rewrite <- !app_assoc in Hcur.
    specialize (Hcur eq_refl Hsep).
    apply (f_equal length) in Heq.
    rewrite length_rev, !length_app in Heq. lia. }
  destruct s as [|c s'].
  - rewrite re_split_from_nil. by repeat constructor.
  - rewrite re_split_from_cons. simpl in Hn.
    destruct (if (c =? nl)%N then match_ws_nl s' else None) as [r|] eqn:E.
    + destruct (c =? nl)%N; [|done].
      pose proof (match_ws_nl_shorter _ _ E) as Hlen.
      constructor; [done|].
      apply (IH (length r) ltac:(lia) r [] ltac:(lia)).
      intros. simpl. lia.
    + apply (IH (length s') ltac:(lia) s' (c :: cur) ltac:(lia)).
      intros p sep q Heq Hsep. simpl in Heq. rewrite <- app_assoc in Heq.
      simpl in Heq. pose proof (Hcur p sep q Heq Hsep) as Hle.
      destruct (decide (length p = length cur)) as [Hp|]; [|simpl; lia].
      exfalso. apply app_inj_1 in Heq as [_ Heq];
        [|by rewrite length_rev].
      destruct Hsep as (ws & -> & Hws). simpl in Heq.
      injection Heq as -> ->. rewrite N.eqb_refl in E.
      rewrite <- app_assoc in E. simpl in E.
      destruct (match_ws_nl_matches ws q Hws) as [r Hr]. congruence.
Qed.
(** C4 fails on two lines of 70 characters that no blank line separates:
    the only block has 141 characters and the specification returns it, while
    [first_long_paragraph] of [generate_spanish_paragraphs.py] looks at
    each line alone and returns the empty string. *)
Lemma lines_are_not_blocks :
  spec_blocks two_lines = [two_lines]
  ∧ extract_first_paragraph_spec two_lines 120 = Some two_lines
  ∧ V1.first_long_paragraph two_lines 120 = []
  ∧ V1.first_long_paragraph two_lines 120
    ≠ or_empty (extract_first_paragraph_spec two_lines 120).
Proof. vm_compute. split_and!; [reflexivity..|discriminate]. Qed.

(** C4, amended. [first_long_paragraph] of [generate_spanish_paragraphs_v2.py]
    cuts the text at the matches of a newline, whitespace, a newline: the
    blocks joined by such separators are the text, each separator is as
    long as can be, and no block has a separator inside.  In
    [generate_spanish_paragraphs.py] and its [_fixed] copy the blocks are
    the lines: joined by newlines they are the text, and no block has a
    newline.  Both return the first block that has [min_len] characters
    once trimmed, trimmed, and the empty string when no block has.  On the
    input of P5 both return the second block. *)
Theorem extractor_returns_first_long_block (text : str) (min_len : Z) :
  (cut_at text (re_split_blank text)
   ∧ Forall (λ b, ¬ has_boundary b) (re_split_blank text)
   ∧ first_block_of (re_split_blank text) min_len
       (V2.first_long_paragraph text min_len))
  ∧ (join [nl] (split_nl text) = text
     ∧ Forall (λ b, nl ∉ b) (split_nl text)
     ∧ first_block_of (split_nl text) min_len
         (V1.first_long_paragraph text min_len))
  ∧ V2.first_long_paragraph p5_input 120 = long_text
  ∧ V1.first_long_paragraph p5_input 120 = long_text.
Proof.
  split_and!.
  - apply (re_split_from_cut (length text) text []). lia.
  - apply (re_split_from_free (length text) text []); [lia|].
    intros. simpl. lia.
  - apply first_long_first.
  - apply (split_nl_from_join [] text).
  - apply split_nl_from_lines, not_elem_of_nil.
  - apply first_long_first.
  - by vm_compute.
  - by vm_compute.
Qed.


(** ** The adapters *)

(** C6 fails where the page is fetched and no paragraph is long enough:
    the Cervantes and Wikisource adapters, and
    the Gutenberg adapter of [generate_spanish_paragraphs.py], return a
    record with an empty text; the Gutenberg adapter of
    [generate_spanish_paragraphs_v2.py] raises. *)
Lemma adapters_return_empty_text :
  V2.paragraph_from_cervantes short_page_world quijote_url
    = Return (Rec [] (py "novela") quijote_url)
  ∧ V2.paragraph_from_wikisource short_page_world gallina_url
    = Return (Rec [] (py "cuento") gallina_url)
  ∧ V1.paragraph_from_gutenberg short_page_world 2000
    = Return (Rec [] (py "novela")
                (py "https://www.gutenberg.org/files/2000/2000-0.txt"))
  ∧ V2.paragraph_from_gutenberg short_page_world 2000
    = Raise (RuntimeError "Gutenberg falló").
Proof. split_and!; reflexivity. Qed.








(** *** What the single-document adapters do on failure *)

Lemma first_long_nonempty blocks m :
  first_long blocks m ≠ [] → m ≤ len (first_long blocks m).
Proof.
  destruct (first_long_first blocks m)
    as [(pre & b & post & _ & _ & Hb & ->)|[_ ->]]; done.
Qed.

(** A record with an empty text passes the test of none of the programs. *)
Lemma gate_of_empty_text (v : variant) (seen : gset str) (r : record) :
  paragraph r = [] → gate_of v seen r = false.
Proof.
  intros Hp. apply not_true_is_false. intros H%gate_of_fits.
  destruct v; simpl in H; rewrite Hp in H.
  - destruct H as [_ H]. vm_compute in H. discriminate.
  - destruct H as [_ H]. vm_compute in H. discriminate.
  - destruct H as (_ & _ & H). vm_compute in H. by apply H.
Qed.

Lemma gutenberg_try_long w urls r :
  V2.gutenberg_try w urls = Return r → MIN_PARAGRAPH_LEN ≤ len (paragraph r).
Proof.
  induction urls as [|u urls IH]; simpl; [done|].
  destruct (http_get w u) as [resp|f]; simpl; [|done].
  destruct (status_code resp =? 200); [|done].
  destruct (V2.first_long_paragraph (text resp) MIN_PARAGRAPH_LEN)
    as [|c p] eqn:Hp; simpl; [done|].
  intros [= <-]. simpl. rewrite <- Hp.
  apply first_long_nonempty. unfold V2.first_long_paragraph in Hp.
  by rewrite Hp.
Qed.

(** The two ways the loop of the Gutenberg adapter leaves an address. *)
Lemma gutenberg_try_serves w u rest resp :
  http_get w u = Return resp → status_code resp = 200 →
  V2.first_long_paragraph (text resp) MIN_PARAGRAPH_LEN ≠ [] →
  V2.gutenberg_try w (u :: rest)
  = Return (Rec (V2.first_long_paragraph (text resp) MIN_PARAGRAPH_LEN)
              (py "novela") u).
Proof.
  intros Hget Hs Hp. simpl. rewrite Hget. simpl. rewrite Hs. simpl.
  by destruct (V2.first_long_paragraph (text resp) MIN_PARAGRAPH_LEN).
Qed.

Lemma gutenberg_try_next w u rest resp :
  http_get w u = Return resp →
  ¬ (status_code resp = 200
     ∧ V2.first_long_paragraph (text resp) MIN_PARAGRAPH_LEN ≠ []) →
  V2.gutenberg_try w (u :: rest) = V2.gutenberg_try w rest.
Proof.
  intros Hget Hn. simpl. rewrite Hget. simpl.
  destruct (status_code resp =? 200) eqn:E; [|done]. apply Z.eqb_eq in E.
  destruct (V2.first_long_paragraph (text resp) MIN_PARAGRAPH_LEN) eqn:Ep;
    [done|]. exfalso. apply Hn. by split.
Qed.

(** C6, amended.  A request that raises makes the adapter raise the same
    exception: the Cervantes and Wikisource adapters, the Gutenberg
    adapter of [generate_spanish_paragraphs.py], and the Gutenberg adapter
    of [generate_spanish_paragraphs_v2.py] for the cache address and, when
    it comes to it, for the files address.  An answer whose status is not
    200 makes the first three raise [RuntimeError]; an answer of status
    200 in which no paragraph is long enough makes them return a record
    with an empty text, and the test of every program refuses such a
    record, so it is never saved.  The Gutenberg adapter of
    [generate_spanish_paragraphs_v2.py] does not fail on an answer that
    does not serve (another status, or no paragraph long enough): it
    returns from the cache address when that one serves, from the files
    address when only that one does, and raises [RuntimeError] when
    neither does; the texts it returns have [MIN_PARAGRAPH_LEN] characters
    at least. *)
Theorem single_document_adapter_failures (w : world) (u : str) (gid : N) :
  let serves resp :=
    status_code resp = 200
    ∧ V2.first_long_paragraph (text resp) MIN_PARAGRAPH_LEN ≠ [] in
  let record_of resp address :=
    Rec (V2.first_long_paragraph (text resp) MIN_PARAGRAPH_LEN)
        (py "novela") address in
  (∀ f, (http_get w u = Raise f →
           V2.paragraph_from_cervantes w u = Raise f)
        ∧ (http_get w (u ++ py "?action=raw") = Raise f →
           V2.paragraph_from_wikisource w u = Raise f)
        ∧ (http_get w (files_url gid) = Raise f →
           V1.paragraph_from_gutenberg w gid = Raise f)
        ∧ (http_get w (cache_url gid) = Raise f →
           V2.paragraph_from_gutenberg w gid = Raise f)
        ∧ (∀ resp, http_get w (cache_url gid) = Return resp → ¬ serves resp →
           http_get w (files_url gid) = Raise f →
           V2.paragraph_from_gutenberg w gid = Raise f))
  ∧ (∀ resp, status_code resp ≠ 200 →
       (http_get w u = Return resp →
          V2.paragraph_from_cervantes w u
          = Raise (RuntimeError "Cervantes falló"))
       ∧ (http_get w (u ++ py "?action=raw") = Return resp →
          V2.paragraph_from_wikisource w u
          = Raise (RuntimeError "Wikisource falló"))
       ∧ (http_get w (files_url gid) = Return resp →
          ∃ msg, V1.paragraph_from_gutenberg w gid
                 = Raise (RuntimeError msg)))
  ∧ (∀ resp, status_code resp = 200 →
       (http_get w u = Return resp →
        V2.first_long_paragraph (join [nl] (soup_paragraphs w (text resp)))
          MIN_PARAGRAPH_LEN = [] →
        V2.paragraph_from_cervantes w u = Return (Rec [] (py "novela") u))
       ∧ (http_get w (u ++ py "?action=raw") = Return resp →
          V2.first_long_paragraph (V2.sub_templates (text resp))
            MIN_PARAGRAPH_LEN = [] →
          V2.paragraph_from_wikisource w u = Return (Rec [] (py "cuento") u))
       ∧ (http_get w (files_url gid) = Return resp →
          V1.first_long_paragraph (text resp) 120 = [] →
          V1.paragraph_from_gutenberg w gid
          = Return (Rec [] (py "novela") (files_url gid))))
  ∧ (∀ v seen r, paragraph r = [] → gate_of v seen r = false)
  ∧ (∀ resp, http_get w (cache_url gid) = Return resp → serves resp →
       V2.paragraph_from_gutenberg w gid
       = Return (record_of resp (cache_url gid)))
  ∧ (∀ resp resp', http_get w (cache_url gid) = Return resp → ¬ serves resp →
       http_get w (files_url gid) = Return resp' →
       (serves resp' →
        V2.paragraph_from_gutenberg w gid
        = Return (record_of resp' (files_url gid)))
       ∧ (¬ serves resp' →
          V2.paragraph_from_gutenberg w gid
          = Raise (RuntimeError "Gutenberg falló")))
  ∧ (∀ r, V2.paragraph_from_gutenberg w gid = Return r →
       MIN_PARAGRAPH_LEN ≤ len (paragraph r)).
Proof.
  intros serves record_of.
  assert (V2.paragraph_from_gutenberg w gid
          = V2.gutenberg_try w [cache_url gid; files_url gid]) as Hg by done.
  split_and!.
  - intros f. split_and!.
    + intros H. unfold V2.paragraph_from_cervantes. by rewrite H.
    + intros H. unfold V2.paragraph_from_wikisource. by rewrite H.
    + intros H. unfold V1.paragraph_from_gutenberg.
      fold (files_url gid). by rewrite H.
    + intros H. rewrite Hg. simpl. by rewrite H.
    + intros resp Hget Hn H. rewrite Hg.
      rewrite (gutenberg_try_next _ _ _ resp) by done. simpl. by rewrite H.
  - intros resp Hs%Z.eqb_neq. split_and!; intros H.
    + unfold V2.paragraph_from_cervantes. rewrite H. simpl. by rewrite Hs.
    + unfold V2.paragraph_from_wikisource. rewrite H. simpl. by rewrite Hs.
    + unfold V1.paragraph_from_gutenberg. fold (files_url gid). rewrite H.
      simpl. rewrite Hs. simpl. by eexists.
  - intros resp Hs%Z.eqb_eq. split_and!; intros H Hp.
    + unfold V2.paragraph_from_cervantes. rewrite H. simpl.
      by rewrite Hs, Hp.
    + unfold V2.paragraph_from_wikisource. rewrite H. simpl.
      by rewrite Hs, Hp.
    + unfold V1.paragraph_from_gutenberg. fold (files_url gid). rewrite H.
      simpl. by rewrite Hs, Hp.
  - apply gate_of_empty_text.
  - intros resp Hget [Hs Hp]. rewrite Hg. by apply gutenberg_try_serves.
  - intros resp resp' Hget Hn Hget'. rewrite Hg.
    rewrite (gutenberg_try_next _ _ _ resp) by done. split.
    + intros [Hs Hp]. by apply gutenberg_try_serves.
    + intros Hn'. by rewrite (gutenberg_try_next _ _ _ resp').
  - intros r H. by eapply gutenberg_try_long.
Qed.

Lemma single_document_adapter_failures_witness :
  http_get short_page_world quijote_url
    = Return (Response 200 (py "<p>corto</p>") quijote_url)
  ∧ V2.paragraph_from_cervantes short_page_world quijote_url
    = Return (Rec [] (py "novela") quijote_url)
  ∧ gate_of (DomainAware whole_url 100) ∅ (Rec [] (py "novela") quijote_url)
    = false
  ∧ V2.paragraph_from_gutenberg mirror_world 2000
    = Return (Rec long_text (py "novela") (files_url 2000)).
Proof.
  pose proof (single_document_adapter_failures short_page_world quijote_url 2000)
    as (_ & _ & Hempty & Hgate & _).
  pose proof (single_document_adapter_failures mirror_world quijote_url 2000)
    as (_ & _ & _ & _ & _ & Hfiles & _).
  split; [reflexivity|]. split; [|split].
  - apply (Hempty (Response 200 (py "<p>corto</p>") quijote_url));
      reflexivity.
  - apply Hgate. reflexivity.
  - destruct (Hfiles (Response 404 [] (cache_url 2000))
                (Response 200 long_text (files_url 2000))) as [Hret _].
    + reflexivity.
    + intros [Hs _]. discriminate Hs.
    + reflexivity.
    + rewrite Hret; [reflexivity|].
      split; [reflexivity|]. vm_compute. discriminate.
Defined.

(** ** The scenarios of the specification *)

(** The scenario of three feeds and a quota of 2: in whatever order the
    shuffle puts the producers, the domain-aware program saves exactly the
    two long items of the first feed and stops on quota. *)
Theorem scenario_of_three_feeds (generators : list producer) :
  generators ≡ₚ [feed_of_two; feed_of_short; feed_of_failures] →
  csv (V2.main whole_url 2 generators) = [rec_a; rec_b]
  ∧ (run (V2.accepts whole_url) 2 generators).2 = QuotaReached.
Proof.
  intros H. symmetry in H. apply permutations_Permutation in H.
  vm_compute permutations in H.
  repeat (apply elem_of_cons in H as [->|H]); try (split; reflexivity).
  by apply elem_of_nil in H.
Qed.

Lemma scenario_of_three_feeds_witness :
  csv (V2.main whole_url 2 [feed_of_short; feed_of_two; feed_of_failures])
  = [rec_a; rec_b].
Proof.
  apply (scenario_of_three_feeds [feed_of_short; feed_of_two; feed_of_failures]).
  apply perm_swap.
Defined.

(** The scenario of exhaustion: the producers hold three distinct long
    records in all and the quota is 10.  In whatever order the shuffle puts
    them, the run ends for lack of producers with three rows saved, and the
    warning is printed. *)
Theorem scenario_of_exhaustion (generators : list producer) :
  generators ≡ₚ [feed_of_two; feed_of_repeats; source_that_breaks] →
  let out := V2.main whole_url 10 generators in
  len (csv out) = 3
  ∧ csv out ≡ₚ [rec_a; rec_b; rec_e]
  ∧ stdout out = [Obtained 3 10; Saved; NotReached]
  ∧ (run (V2.accepts whole_url) 10 generators).2 = SourcesExhausted.
Proof.
  intros H. cbv zeta. symmetry in H. apply permutations_Permutation in H.
  vm_compute permutations in H.
  repeat (apply elem_of_cons in H as [->|H]);
    try (split_and!;
           [reflexivity
           |vm_compute;
            first [ reflexivity
                  | apply perm_skip, perm_swap
                  | apply (Permutation_cons_append [_; _]) ]
           |reflexivity..]).
  by apply elem_of_nil in H.
Qed.

Lemma scenario_of_exhaustion_witness :
  stdout (V2.main whole_url 10
            [feed_of_repeats; feed_of_two; source_that_breaks])
  = [Obtained 3 10; Saved; NotReached].
Proof.
  apply (scenario_of_exhaustion
           [feed_of_repeats; feed_of_two; source_that_breaks]).
  apply perm_swap.
Defined.


(** * More properties *)

Section Trace.

Variable gate : gset str → record → bool.
Variable goal : Z.

Lemma body_cases st r st' stop :
  body gate goal st r = (st', stop) →
  (gate (seen_urls st) r = true ∧ st' = accept st r)
  ∨ (gate (seen_urls st) r = false ∧ st' = st ∧ stop = false).
Proof.
  unfold body. destruct (gate (seen_urls st) r).
  - intros [= <- _]. by left.
  - intros [= <- <-]. by right.
Qed.

Lemma drain_trace st rs e :
  ∃ taken kept,
    taken `prefix_of` rs
    ∧ ((drain gate goal st rs e).2 ≠ Some StopIteration → taken = rs)
    ∧ log (drain gate goal st rs e).1 = log st ++ (Pull <$> taken)
    ∧ collected (drain gate goal st rs e).1 = collected st ++ kept
    ∧ kept `sublist_of` taken.
Proof.
  revert st. induction rs as [|r rs IH]; intros st; simpl.
  - exists [], []. rewrite !app_nil_r. by split_and!.
  - destruct (body gate goal (pull st r) r) as [st1 stop] eqn:Hb.
    apply body_cases in Hb as [[Hg ->]|(Hg & -> & ->)].
    + destruct stop; simpl.
      * exists [r], [r]. split_and!; [|intros H; by destruct H|done..].
        by apply prefix_cons, prefix_nil.
      * destruct (IH (accept (pull st r) r))
          as (taken & kept & Hp & Hall & Hl & Hc & Hs).
        exists (r :: taken), (r :: kept). split_and!.
        -- by apply prefix_cons.
        -- intros H. by rewrite Hall.
        -- rewrite Hl. simpl. by rewrite <- app_assoc.
        -- rewrite Hc. simpl. by rewrite <- app_assoc.
        -- by apply sublist_skip.
    + destruct (IH (pull st r)) as (taken & kept & Hp & Hall & Hl & Hc & Hs).
      exists (r :: taken), kept. split_and!.
      * by apply prefix_cons.
      * intros H. by rewrite Hall.
      * rewrite Hl. simpl. by rewrite <- app_assoc.
      * done.
      * by apply sublist_cons.
Qed.

Lemma pulls_app l1 l2 : pulls (l1 ++ l2) = pulls l1 ++ pulls l2.
Proof. apply omap_app. Qed.

Lemma pulls_Pull rs : pulls (Pull <$> rs) = rs.
Proof.
  induction rs as [|r rs IH]; [done|].
  change (pulls (Pull <$> r :: rs)) with (r :: pulls (Pull <$> rs)).
  by rewrite IH.
Qed.

Lemma consults_app l1 l2 : consults (l1 ++ l2) = (consults l1 + consults l2)%nat.
Proof. unfold consults. by rewrite omap_app, length_app. Qed.

Lemma consults_Pull rs : consults (Pull <$> rs) = 0%nat.
Proof. by induction rs as [|r rs IH]. Qed.

Lemma collect_trace st gens :
  ∃ taken kept n,
    taken `prefix_of` all_yields gens
    ∧ (n ≤ length gens)%nat
    ∧ ((collect gate goal st gens).2 = SourcesExhausted →
       taken = all_yields gens ∧ n = length gens)
    ∧ pulls (log (collect gate goal st gens).1) = pulls (log st) ++ taken
    ∧ consults (log (collect gate goal st gens).1) = (consults (log st) + n)%nat
    ∧ collected (collect gate goal st gens).1 = collected st ++ kept
    ∧ kept `sublist_of` taken.
Proof.
  revert st. induction gens as [|g gens IH]; intros st; simpl.
  - exists [], [], 0%nat. rewrite !app_nil_r. by split_and!.
  - destruct (drain_trace (consult st) (yields g) (ending g))
      as (taken & kept & Hp & Hall & Hl & Hc & Hs).
    destruct (drain gate goal (consult st) (yields g) (ending g)) as [st1 x] eqn:Hd.
    simpl in *.
    assert (pulls (log st1) = pulls (log st) ++ taken) as Hpulls.
    { rewrite Hl. simpl. rewrite !pulls_app, pulls_Pull.
      change (pulls [Consult]) with (@nil record). by rewrite app_nil_r. }
    assert (consults (log st1) = (consults (log st) + 1)%nat) as Hcons.
    { rewrite Hl. simpl. rewrite !consults_app, consults_Pull.
      change (consults [Consult]) with 1%nat. lia. }
    unfold all_yields. simpl.
    destruct x as [[|f]|].
    + exists taken, kept, 1%nat. simpl. split_and!; try done.
      * by apply prefix_app_r.
      * lia.
    + specialize (Hall ltac:(done)). subst taken.
      destruct (IH st1) as (taken' & kept' & n & Hp' & Hn & Hex & Hpl & Hco & Hc' & Hs').
      exists (yields g ++ taken'), (kept ++ kept'), (S n). split_and!.
      * by apply prefix_app.
      * simpl. lia.
      * intros H. destruct (Hex H) as [-> ->]. done.
      * rewrite Hpl, Hpulls. by rewrite <- app_assoc.
      * rewrite Hco, Hcons. lia.
      * rewrite Hc', Hc. by rewrite <- app_assoc.
      * by apply sublist_app.
    + specialize (Hall ltac:(done)). subst taken.
      destruct (IH st1) as (taken' & kept' & n & Hp' & Hn & Hex & Hpl & Hco & Hc' & Hs').
      exists (yields g ++ taken'), (kept ++ kept'), (S n). split_and!.
      * by apply prefix_app.
      * simpl. lia.
      * intros H. destruct (Hex H) as [-> ->]. done.
      * rewrite Hpl, Hpulls. by rewrite <- app_assoc.
      * rewrite Hco, Hcons. lia.
      * rewrite Hc', Hc. by rewrite <- app_assoc.
      * by apply sublist_app.
Qed.

End Trace.

(** The producers are called one after the other and each is pulled from
    in order: the records pulled are an initial part of what the producers
    yield, taken in the order of the list, the rows saved are some of the
    records pulled, in the order they were pulled, and no producer is
    called twice.  A run that ends for lack of producers has called every
    producer and pulled every record. *)
Theorem rows_are_pulled_in_order (v : variant) (generators : list producer) :
  let st := (run_of v generators).1 in
  pulls (log st) `prefix_of` all_yields generators
  ∧ csv (main_of v generators) `sublist_of` pulls (log st)
  ∧ csv (main_of v generators) `sublist_of` all_yields generators
  ∧ (consults (log st) ≤ length generators)%nat
  ∧ ((run_of v generators).2 = SourcesExhausted →
     pulls (log st) = all_yields generators
     ∧ consults (log st) = length generators).
Proof.
  intros st. subst st. rewrite csv_main_of. unfold run_of, run.
  destruct (collect_trace (gate_of v) (quota_of v) init generators)
    as (taken & kept & n & Hp & Hn & Hex & Hpl & Hco & Hc & Hs).
  simpl in *. rewrite Hpl, Hco, Hc. split_and!; [done..| |done|].
  - destruct Hp as [rest ->]. by apply sublist_inserts_r.
  - intros H. by destruct (Hex H) as [-> ->].
Qed.

Lemma rows_are_pulled_in_order_witness :
  let generators := [feed_of_repeats; feed_of_two] in
  let st := (run_of Fixed generators).1 in
  (run_of Fixed generators).2 = SourcesExhausted
  ∧ pulls (log st) = all_yields generators
  ∧ consults (log st) = 2%nat.
Proof.
  split; [reflexivity|].
  apply (rows_are_pulled_in_order Fixed [feed_of_repeats; feed_of_two]).
  reflexivity.
Defined.

(** ** What a run keeps of what it is offered *)

Lemma covered_grows v seen u r : covered v seen r → covered v ({[u]} ∪ seen) r.
Proof.
  destruct v; simpl; [set_solver..|].
  intros (u' & Hu' & Heq). exists u'. split; [set_solver|done].
Qed.

Lemma covered_accepted v seen r : covered v ({[url r]} ∪ seen) r.
Proof.
  destruct v; simpl; [set_solver..|]. exists (url r). split; [set_solver|done].
Qed.

Lemma covered_refused v seen r :
  gate_of v seen r = false → text_fits v r → covered v seen r.
Proof.
  intros Hg Hok. destruct v as [| |domain goal]; simpl in *.
  - destruct (decide (url r ∈ seen)) as [|Hn]; [done|].
    assert (V1.accepts seen r = true) as H; [|congruence].
    by apply v1_accepts_iff.
  - destruct (decide (url r ∈ seen)) as [|Hn]; [done|].
    assert (V1.accepts seen r = true) as H; [|congruence].
    by apply v1_accepts_iff.
  - destruct (decide (domain (url r) ∈ V2.seen_domains domain seen)) as [Hd|Hd].
    + unfold V2.seen_domains in Hd. apply elem_of_map in Hd as (u & Heq & Hu).
      by exists u.
    + destruct (decide (url r ∈ seen)) as [Hu|Hu].
      * by exists (url r).
      * assert (V2.accepts domain seen r = true) as H; [|congruence].
        by apply v2_accepts_iff.
Qed.

Section Covering.

Variable v : variant.

Lemma body_covers st r :
  text_fits v r → covered v (seen_urls (body (gate_of v) (quota_of v) st r).1) r.
Proof.
  intros Hok. unfold body. destruct (gate_of v (seen_urls st) r) eqn:Hg; simpl.
  - apply covered_accepted.
  - by apply covered_refused.
Qed.

Lemma body_keeps_covered st r r0 :
  covered v (seen_urls st) r0 → covered v (seen_urls (body (gate_of v) (quota_of v) st r).1) r0.
Proof.
  intros H. unfold body. destruct (gate_of v (seen_urls st) r); simpl; [|done].
  by apply covered_grows.
Qed.

Lemma drain_keeps_covered st rs e r0 :
  covered v (seen_urls st) r0 →
  covered v (seen_urls (drain (gate_of v) (quota_of v) st rs e).1) r0.
Proof.
  revert st. induction rs as [|r rs IH]; intros st H; simpl; [done|].
  pose proof (body_keeps_covered (pull st r) r r0 H) as Hb.
  destruct (body (gate_of v) (quota_of v) (pull st r) r) as [st1 [|]]; simpl in *; auto.
Qed.

Lemma drain_covers st rs e r0 :
  (drain (gate_of v) (quota_of v) st rs e).2 ≠ Some StopIteration →
  r0 ∈ rs → text_fits v r0 →
  covered v (seen_urls (drain (gate_of v) (quota_of v) st rs e).1) r0.
Proof.
  revert st. induction rs as [|r rs IH]; intros st Hx Hin Hok; simpl in *.
  - by apply elem_of_nil in Hin.
  - pose proof (body_covers (pull st r) r) as Hb.
    destruct (body (gate_of v) (quota_of v) (pull st r) r) as [st1 [|]]; simpl in *; [done|].
    apply elem_of_cons in Hin as [->|Hin].
    + apply drain_keeps_covered. by apply Hb.
    + by apply IH.
Qed.

Lemma collect_keeps_covered st gens r0 :
  covered v (seen_urls st) r0 →
  covered v (seen_urls (collect (gate_of v) (quota_of v) st gens).1) r0.
Proof.
  revert st. induction gens as [|g gens IH]; intros st H; simpl; [done|].
  pose proof (drain_keeps_covered (consult st) (yields g) (ending g) r0 H) as Hd.
  destruct (drain (gate_of v) (quota_of v) (consult st) (yields g) (ending g))
    as [st1 [[|f]|]]; simpl in *; auto.
Qed.

Lemma collect_covers st gens r0 :
  (collect (gate_of v) (quota_of v) st gens).2 = SourcesExhausted →
  r0 ∈ all_yields gens → text_fits v r0 →
  covered v (seen_urls (collect (gate_of v) (quota_of v) st gens).1) r0.
Proof.
  revert st. induction gens as [|g gens IH]; intros st Hs Hin Hok; simpl in *.
  - by apply elem_of_nil in Hin.
  - unfold all_yields in Hin. simpl in Hin. apply elem_of_app in Hin.
    pose proof (drain_covers (consult st) (yields g) (ending g) r0) as Hd.
    destruct (drain (gate_of v) (quota_of v) (consult st) (yields g) (ending g))
      as [st1 [[|f]|]]; simpl in *; [done|..];
      (destruct Hin as [Hin|Hin];
        [apply collect_keeps_covered; by apply Hd|by apply IH]).
Qed.

End Covering.

Lemma covered_key v (rows : list record) r :
  covered v (list_to_set (url <$> rows)) r → key_of v r ∈ key_of v <$> rows.
Proof.
  destruct v as [| |domain goal]; simpl.
  - by intros H%elem_of_list_to_set.
  - by intros H%elem_of_list_to_set.
  - intros (u & Hu%elem_of_list_to_set & Heq).
    apply list_elem_of_fmap in Hu as (r' & -> & Hr').
    rewrite <- Heq. by apply (list_elem_of_fmap_2 (domain ∘ url)).
Qed.

Lemma rows_fit v gens : Forall (text_fits v) (csv (main_of v gens)).
Proof.
  rewrite csv_main_of. eapply reach_passed; [|apply run_reach].
  intros seen r H%gate_of_fits. destruct v; simpl in *; tauto.
Qed.

Lemma rows_yielded v gens r :
  r ∈ csv (main_of v gens) → r ∈ all_yields gens.
Proof.
  intros Hr. rewrite csv_main_of in Hr. unfold run_of, run in Hr.
  destruct (collect_trace (gate_of v) (quota_of v) init gens)
    as (taken & kept & n & Hp & _ & _ & _ & _ & Hc & Hs).
  rewrite Hc in Hr. simpl in Hr.
  destruct Hp as [rest ->]. apply elem_of_app. left.
  by eapply elem_of_sublist.
Qed.

Lemma keys_nodup v gens : NoDup (key_of v <$> csv (main_of v gens)).
Proof.
  rewrite csv_main_of. destruct v as [| |domain goal]; simpl.
  - eapply (reach_nodup V1.accepts 100); [|apply run_reach].
    by intros seen r [? _]%v1_accepts_iff.
  - eapply (reach_nodup V1.accepts 1000); [|apply run_reach].
    by intros seen r [? _]%v1_accepts_iff.
  - apply (reach_nodup_domain domain goal), run_reach.
Qed.

Lemma exhausted_key_saved v gens r :
  (run_of v gens).2 = SourcesExhausted →
  r ∈ all_yields gens → text_fits v r →
  key_of v r ∈ key_of v <$> csv (main_of v gens).
Proof.
  intros Hs Hin Hok. rewrite csv_main_of. apply covered_key.
  rewrite <- (reach_seen (gate_of v) (quota_of v)) by apply run_reach.
  by apply collect_covers.
Qed.

Lemma exhausted_rows_bound v gens (candidates : list record) :
  (run_of v gens).2 = SourcesExhausted →
  NoDup (key_of v <$> candidates) →
  (∀ r, r ∈ candidates → r ∈ all_yields gens ∧ text_fits v r) →
  len candidates ≤ len (csv (main_of v gens)).
Proof.
  intros Hs Hnd Hc.
  assert (key_of v <$> candidates ⊆+ key_of v <$> csv (main_of v gens))
    as Hsub.
  { apply NoDup_submseteq; [done|].
    intros k (r & -> & Hr)%list_elem_of_fmap. destruct (Hc r Hr) as [Hin Hok].
    by apply exhausted_key_saved. }
  apply submseteq_length in Hsub. rewrite !length_fmap in Hsub.
  unfold len. lia.
Qed.

Lemma elem_of_all_yields gens r :
  r ∈ all_yields gens ↔ ∃ g, g ∈ gens ∧ r ∈ yields g.
Proof.
  unfold all_yields. induction gens as [|g gens IH]; simpl.
  - split; [by intros ?%elem_of_nil|by intros (g & ?%elem_of_nil & _)].
  - rewrite elem_of_app, IH. split.
    + intros [H|(g' & Hg' & Hr)].
      * exists g. split; [apply list_elem_of_here|done].
      * exists g'. split; [by apply list_elem_of_further|done].
    + intros (g' & [->|Hg']%elem_of_cons & Hr); [by left|].
      right. by exists g'.
Qed.

Lemma all_yields_perm gens gens' r :
  gens ≡ₚ gens' → r ∈ all_yields gens → r ∈ all_yields gens'.
Proof.
  intros Hp (g & Hg & Hr)%elem_of_all_yields.
  apply elem_of_all_yields. exists g. split; [|done]. by rewrite <- Hp.
Qed.

(** A run that ends for lack of producers has lost nothing but
    duplicates: the keys of the rows saved (the addresses, or in the
    domain-aware program their domains) are exactly the keys of the
    records yielded whose text passes the test. *)
Theorem exhausted_run_saves_every_key
    (v : variant) (generators : list producer) (k : str) :
  (run_of v generators).2 = SourcesExhausted →
  k ∈ key_of v <$> csv (main_of v generators)
  ↔ ∃ r, r ∈ all_yields generators ∧ text_fits v r ∧ key_of v r = k.
Proof.
  intros Hs. split.
  - intros (r & -> & Hr)%list_elem_of_fmap. exists r. split_and!; [| |done].
    + by eapply rows_yielded.
    + pose proof (rows_fit v generators) as Hf.
      rewrite Forall_forall in Hf. by apply Hf.
  - intros (r & Hin & Hok & <-). by apply exhausted_key_saved.
Qed.

Lemma exhausted_run_saves_every_key_witness :
  (run_of Original [feed_of_repeats; feed_of_two]).2 = SourcesExhausted
  ∧ (py "https://b.example/2"
       ∈ key_of Original <$> csv (main_of Original [feed_of_repeats; feed_of_two])
     ↔ ∃ r, r ∈ all_yields [feed_of_repeats; feed_of_two]
            ∧ text_fits Original r
            ∧ key_of Original r = py "https://b.example/2").
Proof.
  split; [reflexivity|].
  apply (exhausted_run_saves_every_key Original [feed_of_repeats; feed_of_two]).
  reflexivity.
Defined.

(** With a positive quota, if the producers yield at least as many
    records as the quota asks for whose texts pass the test and whose keys
    are pairwise distinct, then the run stops on quota with exactly that
    many rows, in whatever order the producers come. *)
Theorem quota_is_reached_when_candidates_suffice
    (v : variant) (generators : list producer) (candidates : list record) :
  0 < quota_of v →
  NoDup (key_of v <$> candidates) →
  (∀ r, r ∈ candidates → r ∈ all_yields generators ∧ text_fits v r) →
  quota_of v ≤ len candidates →
  (run_of v generators).2 = QuotaReached
  ∧ len (csv (main_of v generators)) = quota_of v.
Proof.
  intros Hpos Hnd Hc Hlen.
  pose proof (exhausted_rows_bound v generators candidates) as Hb.
  rewrite csv_main_of in *.
  destruct (run_of v generators) as [st s] eqn:Hrun.
  pose proof Hrun as Hq. apply collect_quota in Hq; [|done].
  simpl in *.
  destruct s; simpl in Hq; [by destruct Hq|].
  specialize (Hb eq_refl Hnd Hc). lia.
Qed.

Lemma quota_is_reached_when_candidates_suffice_witness :
  let v := DomainAware whole_url 2 in
  let generators := [feed_of_short; feed_of_repeats; feed_of_two] in
  0 < quota_of v
  ∧ quota_of v ≤ len [rec_a; rec_b]
  ∧ (run_of v generators).2 = QuotaReached
  ∧ len (csv (main_of v generators)) = quota_of v.
Proof.
  split; [reflexivity|]. split; [done|].
  apply (quota_is_reached_when_candidates_suffice (DomainAware whole_url 2)
           [feed_of_short; feed_of_repeats; feed_of_two] [rec_a; rec_b]).
  - reflexivity.
  - apply (NoDup_fmap_2_strong _); [|by apply NoDup_cons; split;
      [rewrite list_elem_of_singleton|apply NoDup_singleton]].
    intros x y Hx Hy. apply elem_of_cons in Hx as [->|Hx%list_elem_of_singleton];
      apply elem_of_cons in Hy as [->|Hy%list_elem_of_singleton];
      subst; try done; vm_compute; discriminate.
  - intros r Hr. split.
    + apply elem_of_cons in Hr as [->|Hr%list_elem_of_singleton]; [|subst r];
        unfold all_yields; cbn [fmap list_fmap concat yields app feed_of_short
          feed_of_repeats feed_of_two];
        repeat first [apply list_elem_of_here | apply list_elem_of_further].
    + apply elem_of_cons in Hr as [->|Hr%list_elem_of_singleton]; [|subst r];
        vm_compute; discriminate.
  - done.
Defined.

(** The order in which the shuffle puts the producers does not change
    what a run that exhausts them saves, up to duplicates: with a positive
    quota, if the run over one order ends for lack of producers, so does
    the run over any other order, with as many rows and with the same keys
    (addresses, or domains in the domain-aware program). *)
Theorem shuffle_keeps_exhausted_keys
    (v : variant) (generators shuffled : list producer) :
  0 < quota_of v →
  generators ≡ₚ shuffled →
  (run_of v generators).2 = SourcesExhausted →
  (run_of v shuffled).2 = SourcesExhausted
  ∧ len (csv (main_of v shuffled)) = len (csv (main_of v generators))
  ∧ ∀ k, k ∈ key_of v <$> csv (main_of v shuffled)
         ↔ k ∈ key_of v <$> csv (main_of v generators).
Proof.
  intros Hpos Hp Hs.
  assert (∀ g1 g2, g1 ≡ₚ g2 → (run_of v g1).2 = SourcesExhausted →
            len (csv (main_of v g2)) ≤ len (csv (main_of v g1))) as Hle.
  { intros g1 g2 Hp12 Hs1. apply exhausted_rows_bound; [done|apply keys_nodup|].
    intros r Hr. split.
    - apply (all_yields_perm g2 g1); [done|]. by eapply rows_yielded.
    - pose proof (rows_fit v g2) as Hf. rewrite Forall_forall in Hf.
      by apply Hf. }
  assert ((run_of v shuffled).2 = SourcesExhausted) as Hs'.
  { pose proof (Hle _ _ Hp Hs) as Hlen.
    rewrite !csv_main_of in Hlen.
    destruct (run_of v generators) as [st1 s1] eqn:Hr1.
    destruct (run_of v shuffled) as [st2 s2] eqn:Hr2.
    apply collect_quota in Hr1, Hr2; [|done..]. simpl in *. subst s1.
    destruct s2; simpl in *; [|done]. lia. }
  split; [done|]. split.
  - pose proof (Hle _ _ Hp Hs). symmetry in Hp. pose proof (Hle _ _ Hp Hs'). lia.
  - intros k. split; intros (r & -> & Hr)%list_elem_of_fmap.
    + apply exhausted_key_saved; [done| |].
      * apply (all_yields_perm shuffled generators); [done|].
        by eapply rows_yielded.
      * pose proof (rows_fit v shuffled) as Hf. rewrite Forall_forall in Hf.
        by apply Hf.
    + apply exhausted_key_saved; [done| |].
      * apply (all_yields_perm generators shuffled); [done|].
        by eapply rows_yielded.
      * pose proof (rows_fit v generators) as Hf. rewrite Forall_forall in Hf.
        by apply Hf.
Qed.

Lemma shuffle_keeps_exhausted_keys_witness :
  let v := DomainAware whole_url 10 in
  0 < quota_of v
  ∧ [feed_of_repeats; feed_of_two] ≡ₚ [feed_of_two; feed_of_repeats]
  ∧ (run_of v [feed_of_two; feed_of_repeats]).2 = SourcesExhausted
  ∧ len (csv (main_of v [feed_of_two; feed_of_repeats])) = 2.
Proof.
  split; [reflexivity|]. split; [apply perm_swap|].
  destruct (shuffle_keeps_exhausted_keys (DomainAware whole_url 10)
              [feed_of_repeats; feed_of_two] [feed_of_two; feed_of_repeats])
    as (Hs & Hlen & _); [reflexivity|apply perm_swap|reflexivity|].
  split; [exact Hs|]. rewrite Hlen. reflexivity.
Defined.

(** ** What the report says of the run *)

(** With a positive quota the lines printed tell how the loop ended: the
    warning is printed exactly when the producers ran out, and the rows
    number exactly the quota exactly when the loop stopped on quota. *)
Theorem report_tells_how_the_run_ended (v : variant) (generators : list producer) :
  0 < quota_of v →
  let out := main_of v generators in
  ((run_of v generators).2 = SourcesExhausted
   ↔ warning_of v (len (csv out)) ∈ stdout out)
  ∧ ((run_of v generators).2 = QuotaReached ↔ len (csv out) = quota_of v)
  ∧ Saved ∈ stdout out.
Proof.
  intros Hpos out. subst out.
  assert (len (csv (main_of v generators)) < quota_of v
          ↔ warning_of v (len (csv (main_of v generators)))
              ∈ stdout (main_of v generators)) as Hwarn.
  { rewrite csv_main_of.
    destruct v as [| |domain goal]; unfold main_of, run_of, warning_of,
      gate_of, quota_of, V1.main, V1.main_fixed, V2.main; cbn [stdout csv].
    - set (n := len _). destruct (Z.ltb_spec n 100) as [Hlt|Hge].
      + split; [intros _; apply list_elem_of_here|done].
      + split; [lia|]. intros Hin.
        apply elem_of_cons in Hin as [Hin|Hin]; [discriminate Hin|].
        apply list_elem_of_singleton in Hin. discriminate Hin.
    - set (n := len _). destruct (Z.ltb_spec n 1000) as [Hlt|Hge].
      + split; [intros _; apply list_elem_of_here|done].
      + split; [lia|]. intros Hin.
        apply elem_of_cons in Hin as [Hin|Hin]; [discriminate Hin|].
        apply list_elem_of_singleton in Hin. discriminate Hin.
    - set (n := len _). destruct (Z.ltb_spec n goal) as [Hlt|Hge].
      + split; [intros _|done]. apply elem_of_app. right.
        apply list_elem_of_here.
      + split; [lia|]. rewrite app_nil_r. intros Hin.
        apply elem_of_cons in Hin as [Hin|Hin]; [discriminate Hin|].
        apply list_elem_of_singleton in Hin. discriminate Hin. }
  rewrite <- Hwarn. rewrite csv_main_of.
  destruct (run_of v generators) as [st s] eqn:Hrun.
  pose proof Hrun as Hq. apply collect_quota in Hq; [|done]. simpl.
  assert (Saved ∈ stdout (main_of v generators)) as Hsaved.
  { destruct v; unfold main_of, V1.main, V1.main_fixed, V2.main;
      cbn [stdout]; rewrite ?elem_of_app, !elem_of_cons; tauto. }
  destruct s; simpl in Hq.
  - destruct Hq as [Hq _]. split_and!; [|done|done]. split; [done|lia].
  - split_and!; [done| |done]. split; [done|lia].
Qed.

Lemma report_tells_how_the_run_ended_witness :
  let v := DomainAware whole_url 2 in
  let out := main_of v [feed_of_repeats; feed_of_two] in
  0 < quota_of v
  ∧ ((run_of v [feed_of_repeats; feed_of_two]).2 = SourcesExhausted
     ↔ warning_of v (len (csv out)) ∈ stdout out)
  ∧ len (csv out) = 2.
Proof.
  split; [reflexivity|].
  destruct (report_tells_how_the_run_ended (DomainAware whole_url 2)
              [feed_of_repeats; feed_of_two]) as (Hw & Hq & _); [reflexivity|].
  split; [exact Hw|]. apply Hq. reflexivity.
Defined.

(** ** [strip] *)

Lemma lstrip_split s :
  ∃ pre, s = pre ++ lstrip s ∧ Forall (λ c, is_space c = true) pre.
Proof.
  induction s as [|c s IH]; simpl.
  - by exists [].
  - destruct (is_space c) eqn:Hc.
    + destruct IH as (pre & Heq & Hpre). exists (c :: pre).
      split; [simpl; by rewrite <- Heq|by constructor].
    + by exists [].
Qed.

Lemma lstrip_head s c s' : lstrip s = c :: s' → is_space c = false.
Proof.
  induction s as [|a s IH]; simpl; [done|].
  destruct (is_space a) eqn:Ha; [done|]. by intros [= <- _].
Qed.

Lemma lstrip_fixed s : lstrip (lstrip s) = lstrip s.
Proof.
  destruct (lstrip s) as [|c s'] eqn:E; [done|].
  apply lstrip_head in E. simpl. by rewrite E.
Qed.

Lemma lstrip_unchanged c s : is_space c = false → lstrip (c :: s) = c :: s.
Proof. intros H. simpl. by rewrite H. Qed.

(** [s.strip()] is [s] without the whitespace at its two ends: a part of
    [s] between a prefix and a suffix of whitespace, empty or with a first
    and a last character that are not whitespace; stripping twice changes
    nothing more. *)
Lemma strip_is_the_trimmed_text (s : str) :
  (∃ pre post, s = pre ++ strip s ++ post
     ∧ Forall (λ c, is_space c = true) pre
     ∧ Forall (λ c, is_space c = true) post)
  ∧ (strip s = []
     ∨ ∃ a b, head (strip s) = Some a ∧ last (strip s) = Some b
              ∧ is_space a = false ∧ is_space b = false)
  ∧ strip (strip s) = strip s
  ∧ len (strip s) ≤ len s.
Proof.
  unfold strip.
  destruct (lstrip_split s) as (pre & Hs & Hpre).
  destruct (lstrip_split (rev (lstrip s))) as (post & Ht & Hpost).
  set (t := lstrip s) in *. set (u := lstrip (rev t)) in *.
  assert (t = rev u ++ rev post) as Htu.
  { rewrite <- (rev_involutive t), Ht, rev_app_distr. done. }
  assert (u = [] ∨ ∃ a b, head (rev u) = Some a ∧ last (rev u) = Some b
                          ∧ is_space a = false ∧ is_space b = false) as Hends.
  { destruct u as [|b u'] eqn:Hu; [by left|]. right.
    pose proof (lstrip_head _ _ _ Hu) as Hb.
    destruct (rev (b :: u')) as [|a w] eqn:Hr.
    { apply (f_equal (@length _)) in Hr. rewrite length_rev in Hr. done. }
    exists a, b. split_and!; [done| |  |done].
    - rewrite <- Hr. simpl. by rewrite last_snoc.
    - subst t. destruct (lstrip s) as [|a' t'] eqn:Hl.
      { by destruct w. }
      apply lstrip_head in Hl. by injection Htu as -> _. }
  split_and!.
  - exists pre, (rev post). rewrite <- Htu. split_and!; [done..|].
    by apply Forall_rev.
  - destruct Hends as [->|H]; [by left|by right].
  - destruct Hends as [Hu|(a & b & Ha & Hb & Hsa & Hsb)].
    { rewrite Hu. done. }
    destruct (rev u) as [|a' w] eqn:Hr; [done|]. injection Ha as ->.
    rewrite lstrip_unchanged by done. rewrite <- Hr, rev_involutive.
    destruct u as [|b' u']; [done|].
    simpl in Hr. rewrite <- Hr in Hb. rewrite last_snoc in Hb.
    injection Hb as ->. rewrite lstrip_unchanged by done. simpl. by rewrite Hr.
  - assert (len s = len pre + len t) as -> by (rewrite Hs at 1; unfold len; rewrite length_app; lia). rewrite Htu. unfold len.
    rewrite !length_app. lia.
Qed.

Lemma lstrip_spaces pre x :
  Forall (λ c, is_space c = true) pre → lstrip (pre ++ x) = lstrip x.
Proof.
  induction 1 as [|c pre Hc _ IH]; simpl; [done|]. by rewrite Hc.
Qed.

Lemma lstrip_all x : Forall (λ c, is_space c = true) x → lstrip x = [].
Proof.
  intros H. rewrite <- (app_nil_r x). by rewrite lstrip_spaces.
Qed.

Lemma strip_unique s pre u post :
  s = pre ++ u ++ post →
  Forall (λ c, is_space c = true) pre →
  Forall (λ c, is_space c = true) post →
  (u = [] ∨ ∃ a b, head u = Some a ∧ last u = Some b
                   ∧ is_space a = false ∧ is_space b = false) →
  strip s = u.
Proof.
  intros -> Hpre Hpost Hu. unfold strip. rewrite lstrip_spaces by done.
  destruct Hu as [->|(a & b & Ha & Hb & Hsa & Hsb)].
  - simpl. by rewrite (lstrip_all post).
  - destruct u as [|a' u']; [done|]. simpl in Ha. injection Ha as ->.
    change ((a :: u') ++ post) with (a :: (u' ++ post)).
    rewrite lstrip_unchanged by done.
    change (a :: (u' ++ post)) with ((a :: u') ++ post).
    rewrite rev_app_distr.
    rewrite lstrip_spaces by (by apply Forall_rev).
    apply last_Some in Hb as [l' Hl']. rewrite Hl', rev_app_distr. simpl.
    rewrite Hsb. simpl. by rewrite rev_involutive.
Qed.

Lemma strip_tidy p : tidy p → strip p = p.
Proof.
  intros [_ H]. apply (strip_unique p [] p []); [|done..].
  by rewrite app_nil_r.
Qed.

Lemma tidy_no_nl p : tidy p → nl ∉ p.
Proof. intros [H _] Hin. by specialize (H nl Hin eq_refl). Qed.

Lemma words_from_ok s : ∀ cur,
  Forall (λ c, is_space c = false) cur → Forall word_ok (words_from cur s).
Proof.
  assert (∀ cur, cur ≠ [] → Forall (λ c, is_space c = false) cur →
            word_ok (rev cur)) as Hrev.
  { intros cur Hne Hcur. split; [|by apply Forall_rev].
    intros H. apply (f_equal (@length _)) in H. rewrite length_rev in H.
    by destruct cur. }
  induction s as [|c s IH]; intros cur Hcur; simpl.
  - destruct cur; [done|]. constructor; [|done]. by apply Hrev.
  - destruct (is_space c) eqn:Hc.
    + destruct cur; [by apply IH|]. constructor; [by apply Hrev|by apply IH].
    + apply IH. by constructor.
Qed.

Lemma join_ok_spaces ws c :
  Forall word_ok ws → c ∈ join [sp] ws → is_space c = true → c = sp.
Proof.
  induction 1 as [|w ws [_ Hw] Hws IH]; [by intros ?%elem_of_nil|].
  intros Hin Hc.
  assert (c ∈ w → c = sp) as Hinw.
  { intros H. rewrite Forall_forall in Hw. specialize (Hw c H). congruence. }
  destruct ws as [|w' ws']; [by apply Hinw|].
  rewrite join_cons in Hin by done.
  apply elem_of_app in Hin as [?|Hin]; [by apply Hinw|].
  apply elem_of_cons in Hin as [?|Hin]; [done|by apply IH].
Qed.

Lemma join_ok_ends ws :
  ws ≠ [] → Forall word_ok ws →
  ∃ a b, head (join [sp] ws) = Some a ∧ last (join [sp] ws) = Some b
         ∧ is_space a = false ∧ is_space b = false.
Proof.
  intros Hne H. induction H as [|w ws [Hw Hcs] Hws IH]; [done|]. clear Hne.
  destruct w as [|a w]; [done|].
  assert (is_space a = false) as Ha by by inversion Hcs.
  destruct ws as [|w' ws'].
  - simpl. destruct (last (a :: w)) as [b|] eqn:Hb.
    + exists a, b. split_and!; [done..|].
      apply last_Some in Hb as [l' Hl']. rewrite Hl' in Hcs.
      apply Forall_app in Hcs as [_ Hcs]. by inversion Hcs.
    + by apply last_None in Hb.
  - destruct IH as (a' & b & Ha' & Hb & _ & Hsb); [done|].
    exists a, b. rewrite join_cons by done. split_and!; [done| |done..].
    rewrite app_assoc. destruct (join [sp] (w' :: ws')) as [|x y] eqn:E;
      [done|]. rewrite <- E in *. clear E.
    apply last_Some in Hb as [l' ->]. rewrite app_assoc. apply last_snoc.
Qed.

Lemma join_ok_tidy ws : Forall word_ok ws → tidy (join [sp] ws).
Proof.
  intros H. split.
  - intros c. by apply join_ok_spaces.
  - destruct ws as [|w ws]; [by left|]. right. by apply join_ok_ends.
Qed.

Lemma sub_spaces_runs s :
  (∀ cur, cur ≠ [] →
     ∃ post, Forall (λ c, is_space c = true) post
             ∧ rev cur ++ sub_spaces false s
               = join [sp] (words_from cur s) ++ post)
  ∧ (∃ post, Forall (λ c, is_space c = true) post
             ∧ sub_spaces true s = join [sp] (words s) ++ post).
Proof.
  induction s as [|c s [IHP IHQ]].
  - split.
    + intros cur Hne. exists []. split; [done|]. simpl.
      destruct cur; [done|]. simpl. by rewrite !app_nil_r.
    + by exists [].
  - split.
    + intros cur Hne. simpl. destruct (is_space c) eqn:Hc.
      * destruct IHQ as (post & Hpost & Heq). destruct cur as [|x cur']; [done|].
        fold (words s). destruct (words s) as [|w ws] eqn:Hw.
        -- exists (sp :: post). split; [by constructor|].
           rewrite Heq. done.
        -- exists post. split; [done|].
           pose proof (join_cons [sp] (rev (x :: cur')) (w :: ws)) as Hj.
           etransitivity; [|apply (f_equal (λ t, t ++ post)); symmetry;
                            by apply Hj].
           rewrite Heq. simpl. by rewrite <- !app_assoc.
      * destruct (IHP (c :: cur)) as (post & Hpost & Heq); [done|].
        exists post. split; [done|]. rewrite <- Heq. simpl.
        by rewrite <- app_assoc.
    + unfold words. simpl. destruct (is_space c) eqn:Hc.
      * apply IHQ.
      * destruct (IHP [c]) as (post & Hpost & Heq); [done|].
        exists post. split; [done|]. by rewrite <- Heq.
Qed.

Lemma sub_spaces_words s :
  ∃ pre post, Forall (λ c, is_space c = true) pre
    ∧ Forall (λ c, is_space c = true) post
    ∧ sub_spaces false s = pre ++ join [sp] (words s) ++ post.
Proof.
  destruct s as [|c s]; [by exists [], []|].
  destruct (sub_spaces_runs s) as [HP HQ].
  unfold words. simpl. destruct (is_space c) eqn:Hc.
  - destruct HQ as (post & Hpost & Heq). exists [sp], post.
    split_and!; [by constructor|done|]. by rewrite Heq.
  - destruct (HP [c]) as (post & Hpost & Heq); [done|].
    exists [], post. split_and!; [done..|]. by rewrite <- Heq.
Qed.

Lemma words_from_word w : ∀ cur rest,
  Forall (λ c, is_space c = false) w →
  words_from cur (w ++ rest) = words_from (rev w ++ cur) rest.
Proof.
  induction w as [|c w IH]; intros cur rest Hw; [done|].
  inversion Hw as [|? ? Hc Hw']; subst. simpl. rewrite Hc, IH by done.
  by rewrite <- app_assoc.
Qed.

Lemma words_join ws : Forall word_ok ws → words (join [sp] ws) = ws.
Proof.
  unfold words. induction 1 as [|w ws [Hne Hw] Hws IH]; [done|].
  assert (rev w ≠ []) as Hrev.
  { intros H. apply (f_equal (@length _)) in H. rewrite length_rev in H.
    by destruct w. }
  destruct ws as [|w' ws'].
  - simpl. rewrite <- (app_nil_r w) at 1. rewrite words_from_word by done.
    rewrite app_nil_r. simpl. destruct (rev w) eqn:E; [done|].
    by rewrite <- E, rev_involutive.
  - rewrite join_cons by done. rewrite words_from_word by done.
    rewrite app_nil_r. cbn [app words_from]. change (is_space sp) with true.
    cbn iota. destruct (rev w) eqn:E; [done|].
    rewrite <- E, rev_involutive. by rewrite IH.
Qed.

Lemma clean_html_words get_text raw :
  clean_html get_text raw = join [sp] (words (get_text raw)).
Proof.
  unfold clean_html.
  destruct (sub_spaces_words (get_text raw)) as (pre & post & Hpre & Hpost & Heq).
  eapply strip_unique; [exact Heq|done..|].
  apply join_ok_tidy. by apply words_from_ok.
Qed.

Lemma clean_html_tidy get_text raw : tidy (clean_html get_text raw).
Proof.
  rewrite clean_html_words. apply join_ok_tidy. by apply words_from_ok.
Qed.

(** [clean_html] gives the words of the text joined by single spaces, as
    [" ".join(text.split())] would: in the result a whitespace character
    is a space, so there is no line break left, no whitespace stands at
    either end, and the words are those of the text, in order. *)
Theorem clean_html_joins_the_words (get_text : str → str) (raw_html : str) :
  let result := clean_html get_text raw_html in
  result = join [sp] (words (get_text raw_html))
  ∧ words result = words (get_text raw_html)
  ∧ (∀ c, c ∈ result → is_space c = true → c = sp)
  ∧ (nl ∉ result)
  ∧ strip result = result
  ∧ (result = [] ↔ Forall (λ c, is_space c = true) (get_text raw_html)).
Proof.
  intros result. subst result.
  pose proof (clean_html_tidy get_text raw_html) as Ht.
  split_and!.
  - apply clean_html_words.
  - rewrite clean_html_words. apply words_join. by apply words_from_ok.
  - apply Ht.
  - by apply tidy_no_nl.
  - by apply strip_tidy.
  - unfold clean_html. split.
    + intros H. 
      destruct (strip_is_the_trimmed_text (sub_spaces false (get_text raw_html)))
        as ((pre & post & Heq & Hpre & Hpost) & _).
      rewrite H in Heq. simpl in Heq.
      assert (Forall (λ c, is_space c = true)
                (sub_spaces false (get_text raw_html))) as Hall.
      { rewrite Heq. by apply Forall_app. }
      clear -Hall. revert Hall. generalize false.
      induction (get_text raw_html) as [|c s IH]; intros b; simpl; [done|].
      destruct (is_space c) eqn:Hc.
      * intros Hall. constructor; [done|]. apply (IH true).
        destruct b; [done|]. by inversion Hall.
      * intros Hall. inversion Hall. congruence.
    + intros Hall. apply (strip_unique _ (sub_spaces false (get_text raw_html)) [] []);
        [by rewrite app_nil_r| |done|by left].
      clear -Hall. generalize false.
      induction Hall as [|c s Hc _ IH]; intros b; simpl; [done|].
      rewrite Hc. destruct b; [apply IH|]. constructor; [done|apply IH].
Qed.

(** ** The extractor on the paragraphs of a page *)

Lemma split_nl_from_line p : ∀ cur rest,
  nl ∉ p → split_nl_from cur (p ++ rest) = split_nl_from (rev p ++ cur) rest.
Proof.
  induction p as [|c p IH]; intros cur rest Hp; [done|].
  apply not_elem_of_cons in Hp as [Hc Hp]. simpl.
  destruct (c =? nl)%N eqn:E; [apply N.eqb_eq in E; congruence|].
  rewrite IH by done. by rewrite <- app_assoc.
Qed.

Lemma split_nl_join ps :
  ps ≠ [] → Forall (λ p, nl ∉ p) ps → split_nl (join [nl] ps) = ps.
Proof.
  unfold split_nl. intros Hne H. induction H as [|p ps Hp Hps IH]; [done|].
  clear Hne. destruct ps as [|p' ps'].
  - simpl. rewrite <- (app_nil_r p) at 1. rewrite split_nl_from_line by done.
    simpl. by rewrite app_nil_r, rev_involutive.
  - rewrite join_cons by done. rewrite split_nl_from_line by done.
    rewrite app_nil_r. cbn [app split_nl_from].
    change (nl =? nl)%N with true. cbn iota.
    rewrite rev_involutive. by rewrite IH.
Qed.

Lemma first_long_stripped ps m :
  Forall (λ p, strip p = p) ps →
  first_long ps m = default [] (find (λ p, m <=? len p) ps).
Proof.
  induction 1 as [|p ps Hp _ IH]; [done|]. simpl. rewrite Hp.
  by destruct (m <=? len p).
Qed.

Lemma split_at_first_nl p1 : ∀ p0 r q,
  nl ∉ p1 → p1 ++ nl :: r = p0 ++ nl :: q →
  (p0 = p1 ∧ q = r) ∨ ∃ p0', r = p0' ++ nl :: q.
Proof.
  induction p1 as [|a p1 IH]; intros p0 r q Hp Heq.
  - destruct p0 as [|x p0]; simpl in Heq.
    + injection Heq as ->. by left.
    + injection Heq as -> ->. right. by exists p0.
  - apply not_elem_of_cons in Hp as [Ha Hp].
    destruct p0 as [|x p0]; simpl in Heq.
    + injection Heq as -> _. done.
    + injection Heq as -> Heq. destruct (IH _ _ _ Hp Heq) as [[-> ->]|H].
      * by left.
      * by right.
Qed.

Lemma match_ws_nl_nonspace a x : is_space a = false → match_ws_nl (a :: x) = None.
Proof. intros H. simpl. by rewrite H. Qed.

Lemma tidy_head p : tidy p → p ≠ [] → ∃ a x, p = a :: x ∧ is_space a = false.
Proof.
  intros [_ [->|(a & b & Ha & _ & Hsa & _)]] Hne; [done|].
  destruct p as [|a' x]; [done|]. injection Ha as ->. by exists a, x.
Qed.

Lemma tidy_last p : tidy p → p ≠ [] → ∃ x b, p = x ++ [b] ∧ is_space b = false.
Proof.
  intros [_ [->|(a & b & _ & Hb & _ & Hsb)]] Hne; [done|].
  apply last_Some in Hb as [x ->]. by exists x, b.
Qed.

Lemma join_head (sep p : str) (ps : list str) (a : char) (x : str) :
  p = a :: x → ∃ y, join sep (p :: ps) = a :: y.
Proof.
  intros ->. destruct ps as [|p' ps'].
  - by exists x.
  - rewrite join_cons by done. by eexists.
Qed.

Lemma join_last (sep : str) (ps : list str) : ∀ (p x : str) (b : char),
  last (p :: ps) = Some (x ++ [b]) → ∃ y, join sep (p :: ps) = y ++ [b].
Proof.
  induction ps as [|p' ps' IH]; intros p x b Hl.
  - injection Hl as ->. by exists x.
  - rewrite join_cons by done.
    destruct (IH p' x b) as [y Hy]; [done|]. rewrite Hy.
    exists (p ++ sep ++ y). by rewrite <- !app_assoc.
Qed.

Lemma join_no_blank ps :
  Forall (λ p, tidy p ∧ p ≠ []) ps →
  ∀ p q, join [nl] ps = p ++ nl :: q → match_ws_nl q = None.
Proof.
  induction 1 as [|p1 ps [Ht1 Hn1] Hps IH]; intros p q Heq.
  - by destruct p.
  - destruct ps as [|p2 ps'].
    + simpl in Heq. exfalso. apply (tidy_no_nl p1 Ht1). rewrite Heq.
      apply elem_of_app. right. apply list_elem_of_here.
    + rewrite join_cons in Heq by done.
      change (p1 ++ nl :: join [nl] (p2 :: ps') = p ++ nl :: q) in Heq.
      apply split_at_first_nl in Heq; [|by apply tidy_no_nl].
      destruct Heq as [[-> ->]|[p0' Heq]]; [|by eapply IH].
      inversion Hps as [|? ? [Ht2 Hn2] _]; subst.
      destruct (tidy_head p2 Ht2 Hn2) as (a & x & Hp2 & Ha).
      destruct (join_head [nl] p2 ps' a x Hp2) as [y ->].
      by apply match_ws_nl_nonspace.
Qed.

Lemma re_split_from_whole s : ∀ cur,
  (∀ p q, s = p ++ nl :: q → match_ws_nl q = None) →
  re_split_from cur s = [rev cur ++ s].
Proof.
  induction s as [|c s IH]; intros cur H.
  - rewrite re_split_from_nil. by rewrite app_nil_r.
  - rewrite re_split_from_cons.
    assert ((if (c =? nl)%N then match_ws_nl s else None) = None) as ->.
    { destruct (c =? nl)%N eqn:E; [|done]. apply N.eqb_eq in E as ->.
      by apply (H []). }
    rewrite IH.
    + simpl. by rewrite <- app_assoc.
    + intros p q ->. by apply (H (c :: p)).
Qed.

(** In the programs that cut the text at every newline, the paragraph an
    adapter takes from a page is the text of the first [<p>] of the page
    that has [min_len] characters, cleaned; the empty string when the page
    has none. *)
Theorem v1_page_paragraph_is_the_first_long_tag
    (get_text : str → str) (tags : list str) (min_len : Z) :
  let paragraphs := clean_html get_text <$> tags in
  V1.first_long_paragraph (join [nl] paragraphs) min_len
  = default [] (find (λ p, min_len <=? len p) paragraphs).
Proof.
  intros paragraphs. unfold V1.first_long_paragraph.
  assert (Forall tidy paragraphs) as Ht.
  { apply Forall_fmap, Forall_true. intros raw. apply clean_html_tidy. }
  destruct paragraphs as [|p ps] eqn:E.
  - simpl. by destruct (min_len <=? len (strip [])).
  - rewrite split_nl_join; [|done|].
    + apply first_long_stripped. eapply Forall_impl; [exact Ht|].
      intros x. apply strip_tidy.
    + eapply Forall_impl; [exact Ht|]. intros x. apply tidy_no_nl.
Qed.

(** In the program that cuts the text at blank lines only, the texts of
    the [<p>] elements of a page, once cleaned and joined by newlines,
    make one block when none of them is empty: the paragraph an adapter
    takes from such a page is the text of all its [<p>] elements together
    when that has [min_len] characters, and the empty string otherwise,
    however long each element is. *)
Theorem v2_page_paragraph_is_the_whole_page
    (get_text : str → str) (tags : list str) (min_len : Z) :
  let paragraphs := clean_html get_text <$> tags in
  Forall (λ p, p ≠ []) paragraphs →
  V2.first_long_paragraph (join [nl] paragraphs) min_len
  = if min_len <=? len (join [nl] paragraphs) then join [nl] paragraphs else [].
Proof.
  intros paragraphs Hne. unfold V2.first_long_paragraph, re_split_blank.
  assert (Forall (λ p, tidy p ∧ p ≠ []) paragraphs) as Ht.
  { apply Forall_and. split; [|done].
    apply Forall_fmap, Forall_true. intros raw. apply clean_html_tidy. }
  rewrite re_split_from_whole by by apply join_no_blank.
  simpl.
  assert (strip (join [nl] paragraphs) = join [nl] paragraphs) as ->; [|done].
  destruct paragraphs as [|p ps] eqn:E; [done|].
  apply (strip_unique _ [] _ []); [by rewrite app_nil_r|done..|].
  right. inversion Ht as [|? ? [Htp Hnp] Hps]; subst.
  destruct (tidy_head p Htp Hnp) as (a & x & Hp & Ha).
  destruct (join_head [nl] p ps a x Hp) as [y Hy].
  assert (∃ l, last (p :: ps) = Some l ∧ tidy l ∧ l ≠ []) as (l & Hl & Htl & Hnl).
  { destruct (last (p :: ps)) as [l|] eqn:Hl; [|by apply last_None in Hl].
    exists l. split; [done|]. rewrite Forall_forall in Ht.
    apply Ht. apply last_Some in Hl as [l' ->].
    apply elem_of_app. right. apply list_elem_of_here. }
  destruct (tidy_last l Htl Hnl) as (x' & b & -> & Hb).
  destruct (join_last [nl] ps p x' b Hl) as [y' Hy'].
  exists a, b. split_and!; [by rewrite Hy| |done..].
  rewrite Hy'. apply last_snoc.
Qed.

Lemma v2_page_paragraph_is_the_whole_page_witness :
  let paragraphs := clean_html (λ t, t) <$> [py "uno  dos "; py " tres"] in
  Forall (λ p, p ≠ []) paragraphs
  ∧ V2.first_long_paragraph (join [nl] paragraphs) 10
    = py "uno dos" ++ [nl] ++ py "tres"
  ∧ V1.first_long_paragraph (join [nl] paragraphs) 10 = [].
Proof.
  split; [by repeat constructor|]. split; [|reflexivity].
  rewrite (v2_page_paragraph_is_the_whole_page (λ t, t)
             [py "uno  dos "; py " tres"] 10); [reflexivity|].
  by repeat constructor.
Defined.

(** ** Wikisource templates *)

Lemma sub_templates_nil : V2.sub_templates [] = [].
Proof. by simp sub_templates. Qed.

Lemma sub_templates_cons c s' :
  V2.sub_templates (c :: s') =
  match V2.match_template (c :: s') with
  | Some r => V2.sub_templates r
  | None => c :: V2.sub_templates s'
  end.
Proof.
  simp sub_templates.
  destruct (inspect (V2.match_template (c :: s'))) as [[r|] e];
    simp sub_templates; by rewrite e.
Qed.

Lemma match_lazy_close_spec s :
  match V2.match_lazy_close s with
  | Some r => ∃ p, s = p ++ V2.rbrace :: V2.rbrace :: r
  | None => ¬ has_close s
  end.
Proof.
  induction s as [|a s IH]; simpl.
  - intros (p & q & H). by destruct p.
  - destruct s as [|b r].
    + intros (p & q & H). destruct p as [|? [|? ?]]; done.
    + destruct ((a =? V2.rbrace)%N && (b =? V2.rbrace)%N) eqn:E.
      * apply andb_true_iff in E as [->%N.eqb_eq ->%N.eqb_eq]. by exists [].
      * destruct (V2.match_lazy_close (b :: r)) as [r'|].
        -- destruct IH as [p ->]. by exists (a :: p).
        -- intros (p & q & H). destruct p as [|x p].
           ++ injection H as -> -> _. by rewrite !N.eqb_refl in E.
           ++ injection H as -> H. apply IH. by exists p, q.
Qed.

Lemma match_template_spec s :
  match V2.match_template s with
  | Some r => ∃ p, s = V2.lbrace :: V2.lbrace :: p ++ V2.rbrace :: V2.rbrace :: r
  | None => ¬ template_at_head s
  end.
Proof.
  unfold V2.match_template.
  destruct s as [|a [|b r]];
    [by intros (t & H & _)|by intros (t & H & _)|].
  destruct ((a =? V2.lbrace)%N && (b =? V2.lbrace)%N) eqn:E.
  - apply andb_true_iff in E as [->%N.eqb_eq ->%N.eqb_eq].
    pose proof (match_lazy_close_spec r) as H.
    destruct (V2.match_lazy_close r) as [r'|].
    + destruct H as [p ->]. by exists p.
    + intros (t & [= <-] & Ht). done.
  - intros (t & [= -> -> _] & _). by rewrite !N.eqb_refl in E.
Qed.

Lemma match_template_shorter s r :
  V2.match_template s = Some r → (length r < length s)%nat.
Proof.
  intros H. pose proof (match_template_spec s) as Hs. rewrite H in Hs.
  destruct Hs as [p ->]. simpl. rewrite length_app. simpl. lia.
Qed.

Lemma has_close_tail c s : has_close s → has_close (c :: s).
Proof. intros (p & q & ->). by exists (c :: p), q. Qed.

Lemma sub_templates_sublist n : ∀ s,
  (length s ≤ n)%nat → V2.sub_templates s `sublist_of` s.
Proof.
  induction n as [|n IH]; intros s Hn.
  - destruct s; [|simpl in Hn; lia]. by rewrite sub_templates_nil.
  - destruct s as [|c s']; [by rewrite sub_templates_nil|].
    rewrite sub_templates_cons.
    pose proof (match_template_spec (c :: s')) as Hs.
    destruct (V2.match_template (c :: s')) as [r|] eqn:E.
    + destruct Hs as [p Hs]. injection Hs as -> Hs.
      etransitivity; [apply IH|].
      * apply match_template_shorter in E. simpl in *. lia.
      * apply sublist_cons. rewrite Hs.
        replace (V2.lbrace :: p ++ V2.rbrace :: V2.rbrace :: r)
          with ((V2.lbrace :: p ++ [V2.rbrace; V2.rbrace]) ++ r)
          by (simpl; by rewrite <- app_assoc).
        by apply sublist_inserts_l.
    + apply sublist_skip, IH. simpl in Hn. lia.
Qed.

Lemma sub_templates_no_close s : ¬ has_close s → V2.sub_templates s = s.
Proof.
  induction s as [|c s IH]; intros Hc; [by rewrite sub_templates_nil|].
  rewrite sub_templates_cons.
  pose proof (match_template_spec (c :: s)) as Hs.
  destruct (V2.match_template (c :: s)) as [r|].
  - exfalso. apply Hc. destruct Hs as [p ->].
    by exists (V2.lbrace :: V2.lbrace :: p), r.
  - rewrite IH; [done|]. intros H. by apply Hc, has_close_tail.
Qed.

Lemma sub_templates_clean n : ∀ s,
  (length s ≤ n)%nat →
  ∀ p q, V2.sub_templates s = p ++ q → ¬ template_at_head q.
Proof.
  induction n as [|n IH]; intros s Hn p q Heq.
  - destruct s; [|simpl in Hn; lia]. rewrite sub_templates_nil in Heq.
    destruct p, q; try done. by intros (t & H & _).
  - destruct s as [|c s'].
    { rewrite sub_templates_nil in Heq. destruct p, q; try done.
      by intros (t & H & _). }
    rewrite sub_templates_cons in Heq.
    pose proof (match_template_spec (c :: s')) as Hs.
    destruct (V2.match_template (c :: s')) as [r|] eqn:E.
    + eapply IH; [|exact Heq].
      apply match_template_shorter in E. simpl in *. lia.
    + destruct p as [|x p]; simpl in Heq.
      * subst q. intros (t & [= -> Ht] & Hcl).
        destruct s' as [|d r].
        { by rewrite sub_templates_nil in Ht. }
        rewrite sub_templates_cons in Ht.
        pose proof (match_template_spec (d :: r)) as Hd.
        destruct (V2.match_template (d :: r)) as [r'|] eqn:Ed.
        -- destruct Hd as [p' Hd]. injection Hd as -> ->.
           apply Hs. exists (V2.lbrace :: p' ++ V2.rbrace :: V2.rbrace :: r').
           split; [done|]. by exists (V2.lbrace :: p'), r'.
        -- injection Ht as -> Ht.
           pose proof (match_lazy_close_spec r) as Hr.
           destruct (V2.match_lazy_close r) as [r'|].
           ++ apply Hs. exists r. split; [done|]. destruct Hr as [p' ->].
              by exists p', r'.
           ++ rewrite sub_templates_no_close in Ht by done. by subst t.
      * injection Heq as -> Heq. eapply (IH s'); [|exact Heq].
        simpl in Hn. lia.
Qed.

Lemma sub_templates_fixed s :
  (∀ p q, s = p ++ q → ¬ template_at_head q) → V2.sub_templates s = s.
Proof.
  induction s as [|c s IH]; intros H; [by rewrite sub_templates_nil|].
  rewrite sub_templates_cons.
  pose proof (match_template_spec (c :: s)) as Hs.
  destruct (V2.match_template (c :: s)) as [r|].
  - exfalso. apply (H [] (c :: s)); [done|]. destruct Hs as [p Hs].
    injection Hs as -> ->. exists (p ++ V2.rbrace :: V2.rbrace :: r).
    split; [done|]. by exists p, r.
  - rewrite IH; [done|]. intros p q ->. by apply (H (c :: p)).
Qed.

(** Removing the templates of a Wikisource page only deletes text, and
    leaves no template behind: nowhere in the result do two opening braces
    come with two closing braces after them, so that removing templates
    once more changes nothing; a text without two closing braces in a row
    is left as it is. *)
Theorem sub_templates_leaves_no_template (s : str) :
  V2.sub_templates s `sublist_of` s
  ∧ (∀ p q, V2.sub_templates s = p ++ q → ¬ template_at_head q)
  ∧ V2.sub_templates (V2.sub_templates s) = V2.sub_templates s
  ∧ (¬ has_close s → V2.sub_templates s = s).
Proof.
  split_and!.
  - by apply (sub_templates_sublist (length s)).
  - by apply (sub_templates_clean (length s)).
  - apply sub_templates_fixed. by apply (sub_templates_clean (length s)).
  - apply sub_templates_no_close.
Qed.

Lemma sub_templates_leaves_no_template_witness :
  ¬ has_close (py "{{ sin cierre } {texto}")
  ∧ V2.sub_templates (py "{{ sin cierre } {texto}") = py "{{ sin cierre } {texto}".
Proof.
  assert (¬ has_close (py "{{ sin cierre } {texto}")) as H.
  { pose proof (match_lazy_close_spec (py "{{ sin cierre } {texto}")) as H.
    exact H. }
  split; [exact H|].
  by apply (sub_templates_leaves_no_template (py "{{ sin cierre } {texto}")).
Defined.

(** ** What the extractors return *)

Lemma strip_strip s : strip (strip s) = strip s.
Proof. apply strip_is_the_trimmed_text. Qed.

Lemma strip_part s c : c ∈ strip s → c ∈ s.
Proof.
  destruct (strip_is_the_trimmed_text s) as ((pre & post & Heq & _) & _).
  intros H. rewrite Heq, !elem_of_app. tauto.
Qed.

Lemma first_long_extracted blocks m : extracted m (first_long blocks m).
Proof.
  destruct (first_long_first blocks m)
    as [(pre & b & post & _ & _ & Hb & ->)|[_ ->]]; split; auto.
  apply strip_strip.
Qed.

Lemma first_long_part blocks m c :
  c ∈ first_long blocks m → ∃ b, b ∈ blocks ∧ c ∈ b.
Proof.
  destruct (first_long_first blocks m)
    as [(pre & b & post & -> & _ & _ & ->)|[_ ->]].
  - intros H%strip_part. exists b. split; [|done].
    apply elem_of_app. right. apply list_elem_of_here.
  - by intros ?%elem_of_nil.
Qed.

Lemma v1_first_long_paragraph_line text m :
  nl ∉ V1.first_long_paragraph text m.
Proof.
  intros (b & Hb & Hin)%first_long_part.
  pose proof (split_nl_from_lines [] text) as Hl.
  rewrite Forall_forall in Hl. eapply Hl; [|exact Hb|exact Hin].
  by intros ?%elem_of_nil.
Qed.

(** ** The feed adapters *)

Section Feeds.

Variable w : world.
Variable tipo0 : str.

Lemma v1_rss_entries_records links :
  Forall (feed_record tipo0) (V1.rss_entries w tipo0 links)
  ∧ (Some ∘ url <$> V1.rss_entries w tipo0 links) `sublist_of` links.
Proof.
  induction links as [|[link|] links [IH1 IH2]]; simpl; [done| |].
  - destruct link as [|c link]; simpl; [split; [done|by apply sublist_cons]|].
    destruct (http_get w (c :: link)) as [resp|f];
      [|split; [done|by apply sublist_cons]].
    destruct (status_code resp =? 200); simpl;
      [|split; [done|by apply sublist_cons]].
    destruct (V1.first_long_paragraph _ 120) as [|a p] eqn:E; simpl;
      [split; [done|by apply sublist_cons]|].
    split; [|by apply sublist_skip].
    constructor; [|done]. split_and!; [done..|].
    rewrite <- E. apply first_long_extracted.
  - split; [done|by apply sublist_cons].
Qed.

Lemma v2_rss_entries_records links :
  Forall (feed_record tipo0) (V2.rss_entries w tipo0 links)
  ∧ (Some ∘ url <$> V2.rss_entries w tipo0 links) `sublist_of` links.
Proof.
  induction links as [|[link|] links [IH1 IH2]]; simpl; [done| |].
  - destruct link as [|c link]; simpl; [split; [done|by apply sublist_cons]|].
    destruct (http_get w (c :: link)) as [resp|f];
      [|split; [done|by apply sublist_cons]].
    destruct (status_code resp =? 200); simpl;
      [|split; [done|by apply sublist_cons]].
    destruct (V2.first_long_paragraph _ MIN_PARAGRAPH_LEN) as [|a p] eqn:E;
      simpl; [split; [done|by apply sublist_cons]|].
    split; [|by apply sublist_skip].
    constructor; [|done]. split_and!; [done..|].
    rewrite <- E. apply first_long_extracted.
  - split; [done|by apply sublist_cons].
Qed.

End Feeds.

(** Once the feed is parsed, a feed producer never raises, whatever the
    fetch of an entry does, and yields at most one record for each entry
    of the feed, in the order of the feed, with the link of the entry as
    its address.  Every record it
    yields has the label given for the feed, an address that is not empty,
    and a text of at least 120 characters with no whitespace at either
    end. *)
Theorem feed_producer_yields_long_labelled_records
    (w : world) (rss_url tipo0 : str) :
  let v1 := V1.paragraphs_from_rss w rss_url tipo0 in
  let v2 := V2.paragraphs_from_rss w rss_url tipo0 in
  ending v1 = None ∧ ending v2 = None
  ∧ (Some ∘ url <$> yields v1) `sublist_of` feed_links w rss_url
  ∧ (Some ∘ url <$> yields v2) `sublist_of` feed_links w rss_url
  ∧ ∀ r, r ∈ yields v1 ∨ r ∈ yields v2 →
      tipo r = tipo0 ∧ url r ≠ []
      ∧ 120 ≤ len (paragraph r) ∧ strip (paragraph r) = paragraph r.
Proof.
  intros v1 v2. subst v1 v2. simpl.
  destruct (v1_rss_entries_records w tipo0 (feed_links w rss_url)) as [H1 S1].
  destruct (v2_rss_entries_records w tipo0 (feed_links w rss_url)) as [H2 S2].
  split_and!; [done..|].
  rewrite Forall_forall in H1, H2.
  intros r [Hr|Hr]; [apply H1 in Hr|apply H2 in Hr];
    destruct Hr as (Ht & Hu & Hne & [[?|Hlen] Hs]); done.
Qed.

Lemma feed_producer_yields_long_labelled_records_witness :
  let feed := V2.paragraphs_from_rss mirror_world (py "https://feed.example/rss")
                (py "blog") in
  yields feed = [Rec long_text (py "blog") short_link]
  ∧ tipo (Rec long_text (py "blog") short_link) = py "blog"
  ∧ 120 ≤ len long_text.
Proof.
  split; [reflexivity|].
  destruct (feed_producer_yields_long_labelled_records mirror_world
              (py "https://feed.example/rss") (py "blog"))
    as (_ & _ & _ & _ & H).
  destruct (H (Rec long_text (py "blog") short_link)) as (Ht & _ & Hl & _).
  - right. apply list_elem_of_here.
  - split; [exact Ht|exact Hl].
Defined.

(** ** The Wikipedia adapter *)

Lemma wikipedia_records w r :
  V1.random_wikipedia_paragraph w = Return r
  ∨ V2.random_wikipedia_paragraph w = Return r →
  tipo r = py "enciclopedia" ∧ url r ≠ []
  ∧ 120 ≤ len (paragraph r) ∧ strip (paragraph r) = paragraph r.
Proof.
  unfold V1.random_wikipedia_paragraph, V2.random_wikipedia_paragraph.
  fold WIKIPEDIA_API. intros H.
  destruct (http_get w WIKIPEDIA_API) as [resp|f]; simpl in H;
    [|by destruct H].
  destruct (summary_json w (text resp)) as [[extract page]|f]; simpl in H;
    [|by destruct H].
  destruct H as [H|H].
  - pose proof (first_long_extracted (split_nl extract) 120) as [Hl Hs].
    fold (V1.first_long_paragraph extract 120) in Hl, Hs.
    destruct (V1.first_long_paragraph extract 120) as [|a p]; [done|].
    destruct page as [|c page]; [done|]. simpl in H. injection H as <-.
    simpl. by destruct Hl.
  - pose proof (first_long_extracted (re_split_blank extract) MIN_PARAGRAPH_LEN)
      as [Hl Hs].
    fold (V2.first_long_paragraph extract MIN_PARAGRAPH_LEN) in Hl, Hs.
    destruct (V2.first_long_paragraph extract MIN_PARAGRAPH_LEN) as [|a p];
      [done|].
    destruct page as [|c page]; [done|]. simpl in H. injection H as <-.
    simpl. by destruct Hl.
Qed.

(** The Wikipedia adapter returns a record only with a text of at least
    120 characters and an address that is not empty, labelled
    [enciclopedia]; a fetch or a JSON decoding that raises makes it raise
    the same exception, and a summary without a long paragraph or without
    an address makes it raise [RuntimeError]: unlike the adapters of single
    documents it never returns an empty text. *)
Theorem wikipedia_adapter_returns_long_text_or_raises (w : world) :
  (∀ r, V1.random_wikipedia_paragraph w = Return r
        ∨ V2.random_wikipedia_paragraph w = Return r →
     tipo r = py "enciclopedia" ∧ url r ≠ []
     ∧ 120 ≤ len (paragraph r) ∧ strip (paragraph r) = paragraph r)
  ∧ (∀ f, http_get w WIKIPEDIA_API = Raise f →
       V1.random_wikipedia_paragraph w = Raise f
       ∧ V2.random_wikipedia_paragraph w = Raise f)
  ∧ (∀ resp f, http_get w WIKIPEDIA_API = Return resp →
       summary_json w (text resp) = Raise f →
       V1.random_wikipedia_paragraph w = Raise f
       ∧ V2.random_wikipedia_paragraph w = Raise f)
  ∧ (∀ resp extract page, http_get w WIKIPEDIA_API = Return resp →
       summary_json w (text resp) = Return (extract, page) →
       (V1.first_long_paragraph extract 120 = [] ∨ page = [] →
        ∃ msg, V1.random_wikipedia_paragraph w = Raise (RuntimeError msg))
       ∧ (V2.first_long_paragraph extract MIN_PARAGRAPH_LEN = [] ∨ page = [] →
          V2.random_wikipedia_paragraph w = Raise (RuntimeError "Wikipedia vacío"))).
Proof.
  split_and!; [apply wikipedia_records|..];
    unfold V1.random_wikipedia_paragraph, V2.random_wikipedia_paragraph;
    fold WIKIPEDIA_API.
  - intros f ->. done.
  - intros resp f -> Hj. simpl. by rewrite Hj.
  - intros resp extract page -> Hj. simpl. rewrite Hj. simpl. split.
    + intros [->| ->]; [by eexists|].
      rewrite andb_false_r. by eexists.
    + intros [->| ->]; [done|]. by rewrite andb_false_r.
Qed.

Lemma wikipedia_adapter_returns_long_text_or_raises_witness :
  http_get mirror_world WIKIPEDIA_API
    = Return (Response 200 long_text WIKIPEDIA_API)
  ∧ summary_json mirror_world long_text = Return (long_text, [])
  ∧ V2.random_wikipedia_paragraph mirror_world
    = Raise (RuntimeError "Wikipedia vacío").
Proof.
  split; [reflexivity|]. split; [reflexivity|].
  destruct (wikipedia_adapter_returns_long_text_or_raises mirror_world)
    as (_ & _ & _ & H).
  apply (H (Response 200 long_text WIKIPEDIA_API) long_text []);
    [reflexivity|reflexivity|by right].
Defined.

(** ** The Gutenberg adapter that tries two addresses *)

(** The Gutenberg adapter of [generate_spanish_paragraphs_v2.py] asks the
    cache address first and returns from it when it answers 200 with a
    long paragraph; otherwise it asks the files address and returns from
    that one under the same condition, and raises [RuntimeError] when
    neither serves.  A fetch that raises is not caught: when the cache
    address raises, the files address is never tried. *)
Theorem gutenberg_adapter_falls_back_to_files (w : world) (gid : N) :
  let usable resp :=
    status_code resp = 200
    ∧ V2.first_long_paragraph (text resp) MIN_PARAGRAPH_LEN ≠ [] in
  let record_of resp u :=
    Rec (V2.first_long_paragraph (text resp) MIN_PARAGRAPH_LEN) (py "novela") u in
  (∀ f, http_get w (cache_url gid) = Raise f →
     V2.paragraph_from_gutenberg w gid = Raise f)
  ∧ (∀ resp, http_get w (cache_url gid) = Return resp → usable resp →
       V2.paragraph_from_gutenberg w gid = Return (record_of resp (cache_url gid)))
  ∧ (∀ resp, http_get w (cache_url gid) = Return resp → ¬ usable resp →
       (∀ f, http_get w (files_url gid) = Raise f →
          V2.paragraph_from_gutenberg w gid = Raise f)
       ∧ (∀ resp', http_get w (files_url gid) = Return resp' → usable resp' →
            V2.paragraph_from_gutenberg w gid
            = Return (record_of resp' (files_url gid)))
       ∧ (∀ resp', http_get w (files_url gid) = Return resp' → ¬ usable resp' →
            V2.paragraph_from_gutenberg w gid
            = Raise (RuntimeError "Gutenberg falló"))).
Proof.
  intros usable record_of.
  assert (∀ resp, usable resp ∨ ¬ usable resp) as Hdec.
  { intros resp. unfold usable.
    destruct (decide (status_code resp = 200)); [|tauto].
    destruct (V2.first_long_paragraph (text resp) MIN_PARAGRAPH_LEN);
      [right; by intros [_ ?]|by left]. }
  assert (∀ resp u rest, usable resp → http_get w u = Return resp →
            V2.gutenberg_try w (u :: rest) = Return (record_of resp u)) as Hyes.
  { intros resp u rest [Hs Hp] Hget. simpl. rewrite Hget. simpl.
    rewrite Hs. simpl. unfold record_of.
    by destruct (V2.first_long_paragraph (text resp) MIN_PARAGRAPH_LEN). }
  assert (∀ resp u rest, ¬ usable resp → http_get w u = Return resp →
            V2.gutenberg_try w (u :: rest) = V2.gutenberg_try w rest) as Hno.
  { intros resp u rest Hn Hget. simpl. rewrite Hget. simpl.
    destruct (status_code resp =? 200) eqn:E; [|done].
    apply Z.eqb_eq in E.
    destruct (V2.first_long_paragraph (text resp) MIN_PARAGRAPH_LEN) eqn:Ep;
      [done|]. exfalso. apply Hn. split; [done|]. by rewrite Ep. }
  unfold V2.paragraph_from_gutenberg. fold (cache_url gid) (files_url gid).
  split_and!.
  - intros f Hget. simpl. by rewrite Hget.
  - intros resp Hget Hu. by apply Hyes.
  - intros resp Hget Hn. rewrite (Hno resp) by done. split_and!.
    + intros f Hget'. simpl. by rewrite Hget'.
    + intros resp' Hget' Hu. by apply Hyes.
    + intros resp' Hget' Hn'. by rewrite (Hno resp').
Qed.

Lemma gutenberg_adapter_falls_back_to_files_witness :
  http_get mirror_world (cache_url 2000) = Return (Response 404 [] (cache_url 2000))
  ∧ V2.paragraph_from_gutenberg mirror_world 2000
    = Return (Rec long_text (py "novela") (files_url 2000)).
Proof.
  split; [reflexivity|].
  destruct (gutenberg_adapter_falls_back_to_files mirror_world 2000)
    as (_ & _ & H).
  destruct (H (Response 404 [] (cache_url 2000))) as (_ & Hfiles & _).
  - reflexivity.
  - intros [Hs _]. discriminate Hs.
  - rewrite (Hfiles (Response 200 long_text (files_url 2000))).
    + reflexivity.
    + reflexivity.
    + split; [reflexivity|]. vm_compute. discriminate.
Defined.

(** ** A larger quota *)

Section QuotaOrder.

Variable gate : gset str → record → bool.
Variables g g' : Z.
Hypothesis Hle : g ≤ g'.

Lemma drain_grows goal st rs e :
  collected st `prefix_of` collected (drain gate goal st rs e).1.
Proof.
  destruct (drain_trace gate goal st rs e) as (taken & kept & _ & _ & _ & -> & _).
  by apply prefix_app_r.
Qed.

Lemma collect_grows goal st gens :
  collected st `prefix_of` collected (collect gate goal st gens).1.
Proof.
  destruct (collect_trace gate goal st gens)
    as (taken & kept & n & _ & _ & _ & _ & _ & -> & _).
  by apply prefix_app_r.
Qed.

Lemma drain_two st rs e :
  drain gate g st rs e = drain gate g' st rs e
  ∨ ((drain gate g st rs e).2 = Some StopIteration
     ∧ collected (drain gate g st rs e).1
         `prefix_of` collected (drain gate g' st rs e).1).
Proof.
  revert st. induction rs as [|r rs IH]; intros st; simpl; [by left|].
  unfold body. destruct (gate (seen_urls (pull st r)) r); [|apply IH].
  set (st1 := accept (pull st r) r).
  destruct (bool_decide (g ≤ len (collected st1))) eqn:E1;
    destruct (bool_decide (g' ≤ len (collected st1))) eqn:E2.
  - by left.
  - right. split; [done|]. simpl. apply drain_grows.
  - apply bool_decide_eq_true in E2. apply bool_decide_eq_false in E1. lia.
  - apply IH.
Qed.

Lemma collect_two st gens :
  collected (collect gate g st gens).1
    `prefix_of` collected (collect gate g' st gens).1.
Proof.
  revert st. induction gens as [|gen gens IH]; intros st; simpl; [done|].
  destruct (drain_two (consult st) (yields gen) (ending gen)) as [Heq|[Hs Hp]].
  - rewrite Heq.
    destruct (drain gate g' (consult st) (yields gen) (ending gen))
      as [st1 [[|f]|]]; [done|apply IH..].
  - destruct (drain gate g (consult st) (yields gen) (ending gen))
      as [st1 x]. simpl in Hs, Hp. subst x.
    destruct (drain gate g' (consult st) (yields gen) (ending gen))
      as [st2 [[|f]|]]; simpl in *; [done|..];
      (etransitivity; [exact Hp|apply collect_grows]).
Qed.

End QuotaOrder.

(** Asking for more rows never changes the rows already obtained: over
    the same producers in the same order, the rows saved for a quota are
    the first rows of those saved for any larger quota.  So the rows of
    [generate_spanish_paragraphs.py], which stops at 100, are the first
    rows of those of its [_fixed] copy, which stops at 1000. *)
Theorem larger_quota_extends_the_rows (generators : list producer) :
  (∀ domain goal goal', goal ≤ goal' →
     csv (V2.main domain goal generators)
       `prefix_of` csv (V2.main domain goal' generators))
  ∧ csv (V1.main generators) `prefix_of` csv (V1.main_fixed generators).
Proof.
  split.
  - intros domain goal goal' Hle. by apply collect_two.
  - by apply collect_two.
Qed.

Lemma larger_quota_extends_the_rows_witness :
  1 ≤ 2
  ∧ csv (V2.main whole_url 1 [feed_of_repeats; feed_of_two])
      `prefix_of` csv (V2.main whole_url 2 [feed_of_repeats; feed_of_two])
  ∧ csv (V2.main whole_url 2 [feed_of_repeats; feed_of_two]) = [rec_a; rec_b].
Proof.
  split; [done|]. split; [|reflexivity].
  apply (larger_quota_extends_the_rows [feed_of_repeats; feed_of_two]). done.
Defined.

(** ** The producers that [main] registers *)

Lemma once_yields (res : result record) (P : record → Prop) :
  (∀ r, res = Return r → P r) → Forall P (yields (once res)).
Proof.
  intros H. destruct res as [r|f]; simpl; [|done].
  constructor; [by apply H|done].
Qed.

Lemma v1_rss_entries_lines w tipo0 links :
  Forall (λ r, nl ∉ paragraph r) (V1.rss_entries w tipo0 links).
Proof.
  induction links as [|[link|] links IH]; simpl; [done| |done].
  destruct (negb (truthy link)); [done|].
  destruct (http_get w link) as [resp|f]; [|done].
  destruct (negb (status_code resp =? 200)); [done|].
  destruct (truthy _); [|done].
  constructor; [|done]. apply v1_first_long_paragraph_line.
Qed.

Lemma v1_generators_yield w rss_sources :
  Forall (λ g, Forall (λ r, extracted 120 (paragraph r)
                            ∧ (nl ∉ paragraph r)
                            ∧ tipo r ∈ V1_LABELS rss_sources) (yields g))
         (V1.generators w rss_sources).
Proof.
  unfold V1.generators, V1_LABELS. rewrite !Forall_app. split_and!.
  - apply Forall_concat, Forall_fmap, Forall_forall. intros [t0 feeds] Hin.
    apply Forall_fmap, Forall_forall. intros rss _. simpl.
    destruct (v1_rss_entries_records w t0 (feed_links w rss)) as [H _].
    pose proof (v1_rss_entries_lines w t0 (feed_links w rss)) as Hl.
    rewrite Forall_forall in H, Hl. apply Forall_forall. intros r Hr.
    destruct (H r Hr) as (Ht & _ & _ & He). split_and!; [done|by apply Hl|].
    apply elem_of_app. left. rewrite Ht.
    by apply (list_elem_of_fmap_2 fst _ (t0, feeds)).
  - constructor; [|done]. apply once_yields. intros r Hr.
    destruct (wikipedia_records w r) as (Ht & _ & Hl & Hs); [by left|].
    split_and!.
    + split; [by right|done].
    + unfold V1.random_wikipedia_paragraph in Hr.
      destruct (http_get w _) as [resp|f]; [|done]. simpl in Hr.
      destruct (summary_json w (text resp)) as [[extract page]|f]; [|done].
      simpl in Hr. destruct (truthy _ && truthy _); [|done].
      injection Hr as <-. apply v1_first_long_paragraph_line.
    + rewrite Ht. apply elem_of_app. right. apply list_elem_of_here.
  - apply Forall_fmap, Forall_forall. intros gid _. simpl.
    apply once_yields. intros r Hr. unfold V1.paragraph_from_gutenberg in Hr.
    destruct (http_get w _) as [resp|f]; [|done]. simpl in Hr.
    destruct (negb (status_code resp =? 200)); [done|].
    injection Hr as <-. simpl. split_and!.
    + apply first_long_extracted.
    + apply v1_first_long_paragraph_line.
    + apply elem_of_app. right. do 1 apply list_elem_of_further.
      apply list_elem_of_here.
  - constructor; [|done]. apply once_yields. intros r Hr.
    unfold V1.random_cuento_paragraph in Hr.
    destruct (http_get w _) as [resp|f]; [|done]. simpl in Hr.
    destruct (negb (status_code resp =? 200)); [done|].
    injection Hr as <-. simpl. split_and!.
    + apply first_long_extracted.
    + apply v1_first_long_paragraph_line.
    + apply elem_of_app. right. do 2 apply list_elem_of_further.
      apply list_elem_of_here.
Qed.

Lemma v2_generators_yield w :
  Forall (λ g, Forall (λ r, extracted MIN_PARAGRAPH_LEN (paragraph r)
                            ∧ tipo r ∈ V2_LABELS) (yields g))
         (V2.build_generators w).
Proof.
  unfold V2.build_generators, V2_LABELS. rewrite !Forall_app. split_and!.
  - apply Forall_concat, Forall_fmap, Forall_forall. intros [t0 feeds] Hin.
    apply Forall_fmap, Forall_forall. intros rss _. simpl.
    destruct (v2_rss_entries_records w t0 (feed_links w rss)) as [H _].
    rewrite Forall_forall in H. apply Forall_forall. intros r Hr.
    destruct (H r Hr) as (Ht & _ & _ & He). split; [done|].
    rewrite Ht.
    apply elem_of_cons in Hin as [[= <- _]|Hin]; [apply list_elem_of_here|].
    apply list_elem_of_singleton in Hin as [= <- _].
    apply list_elem_of_further, list_elem_of_here.
  - apply Forall_fmap, Forall_forall. intros gid _. simpl.
    apply once_yields. intros r Hr. split.
    + apply gutenberg_try_long in Hr as Hl.
      split; [by right|].
      unfold V2.paragraph_from_gutenberg in Hr.
      revert Hr. generalize [cache_url gid; files_url gid].
      unfold cache_url, files_url.
      match goal with |- ∀ l, V2.gutenberg_try w ?l0 = _ → _ =>
        generalize l0 end.
      intros l _. induction l as [|u l IH]; simpl; [done|].
      destruct (http_get w u) as [resp|f]; [|done]. simpl.
      destruct (status_code resp =? 200); [|done].
      destruct (truthy _); [|done].
      intros [= <-]. apply first_long_extracted.
    + unfold V2.paragraph_from_gutenberg in Hr.
      revert Hr.
      match goal with |- V2.gutenberg_try w ?l0 = _ → _ =>
        generalize l0 end.
      intros l. induction l as [|u l IH]; simpl; [done|].
      destruct (http_get w u) as [resp|f]; [|done]. simpl.
      destruct (status_code resp =? 200); [|done].
      destruct (truthy _); [|done].
      intros [= <-]. simpl. do 2 apply list_elem_of_further.
      apply list_elem_of_here.
  - apply Forall_fmap, Forall_forall. intros u _. simpl.
    apply once_yields. intros r Hr. unfold V2.paragraph_from_cervantes in Hr.
    destruct (http_get w _) as [resp|f]; [|done]. simpl in Hr.
    destruct (negb (status_code resp =? 200)); [done|].
    injection Hr as <-. simpl. split; [apply first_long_extracted|].
    do 2 apply list_elem_of_further. apply list_elem_of_here.
  - apply Forall_fmap, Forall_forall. intros u _. simpl.
    apply once_yields. intros r Hr. unfold V2.paragraph_from_wikisource in Hr.
    destruct (http_get w _) as [resp|f]; [|done]. simpl in Hr.
    destruct (negb (status_code resp =? 200)); [done|].
    injection Hr as <-. simpl. split; [apply first_long_extracted|].
    do 3 apply list_elem_of_further. apply list_elem_of_here.
  - constructor; [|done]. apply once_yields. intros r Hr.
    destruct (wikipedia_records w r) as (Ht & _ & Hl & Hs); [by right|].
    split; [split; [by right|done]|]. rewrite Ht.
    do 4 apply list_elem_of_further. apply list_elem_of_here.
  - constructor; [|done]. apply once_yields. intros r Hr.
    unfold V2.random_cuento_paragraph in Hr.
    destruct (http_get w _) as [resp|f]; [|done]. simpl in Hr.
    destruct (negb (status_code resp =? 200)); [done|].
    injection Hr as <-. simpl. split; [apply first_long_extracted|].
    do 3 apply list_elem_of_further. apply list_elem_of_here.
Qed.

Lemma words_nil_count : V1.word_count [] = 0.
Proof. done. Qed.

Lemma yielded_by gens gens' (P : record → Prop) r :
  gens ≡ₚ gens' → Forall (λ g, Forall P (yields g)) gens' →
  r ∈ all_yields gens → P r.
Proof.
  intros Hp H (g & Hg & Hr)%elem_of_all_yields.
  rewrite Forall_forall in H. rewrite Hp in Hg. specialize (H g Hg).
  rewrite Forall_forall in H. by apply H.
Qed.

(** Whatever the sites answer, the rows that
    [generate_spanish_paragraphs.py] and its [_fixed] copy save hold a
    single line of at least 120 characters and of more than 20 words, with
    no whitespace at either end, and a label that is the kind of one of
    the feeds or one of [enciclopedia], [novela] and [cuento]: the test of
    [main] counts words only, the length comes from the extractor that
    every adapter calls. *)
Theorem v1_rows_are_long_single_lines
    (w : world) (rss_sources : list (str * list str))
    (generators : list producer) (r : record) :
  generators ≡ₚ V1.generators w rss_sources →
  r ∈ csv (V1.main generators) ∨ r ∈ csv (V1.main_fixed generators) →
  120 ≤ len (paragraph r)
  ∧ 20 < V1.word_count (paragraph r)
  ∧ (nl ∉ paragraph r)
  ∧ strip (paragraph r) = paragraph r
  ∧ tipo r ∈ V1_LABELS rss_sources.
Proof.
  intros Hp Hr.
  assert (r ∈ all_yields generators ∧ 20 < V1.word_count (paragraph r))
    as [Hy Hw].
  { destruct Hr as [Hr|Hr].
    - split; [by apply (rows_yielded Original)|].
      pose proof (rows_fit Original generators) as Hf.
      rewrite Forall_forall in Hf. by apply (Hf r).
    - split; [by apply (rows_yielded Fixed)|].
      pose proof (rows_fit Fixed generators) as Hf.
      rewrite Forall_forall in Hf. by apply (Hf r). }
  pose proof (yielded_by _ _ _ r Hp (v1_generators_yield w rss_sources) Hy)
    as ([[He|Hl] Hs] & Hnl & Ht).
  - rewrite He, words_nil_count in Hw. lia.
  - done.
Qed.

Lemma v1_rows_are_long_single_lines_witness :
  let r := Rec long_text (py "noticia") short_link in
  r ∈ csv (V1.main (V1.generators redirecting_world V1.RSS_SOURCES))
  ∧ 120 ≤ len (paragraph r)
  ∧ tipo r ∈ V1_LABELS V1.RSS_SOURCES.
Proof.
  assert (Rec long_text (py "noticia") short_link
            ∈ csv (V1.main (V1.generators redirecting_world V1.RSS_SOURCES)))
    as Hr.
  { assert (csv (V1.main (V1.generators redirecting_world V1.RSS_SOURCES))
            = [Rec long_text (py "noticia") short_link;
               Rec long_text (py "cuento") article_url]) as ->
      by (vm_compute; reflexivity).
    apply list_elem_of_here. }
  split; [exact Hr|].
  destruct (v1_rows_are_long_single_lines redirecting_world V1.RSS_SOURCES
              (V1.generators redirecting_world V1.RSS_SOURCES)
              (Rec long_text (py "noticia") short_link))
    as (Hl & _ & _ & _ & Ht); [reflexivity|by left|].
  split; [exact Hl|exact Ht].
Defined.

(** Whatever the sites answer, a record that a producer of
    [build_generators] yields has a text that is empty or of at least
    [MIN_PARAGRAPH_LEN] characters, so that the length test of [main]
    refuses the empty texts and nothing else; the rows saved have a text
    of at least [MIN_PARAGRAPH_LEN] characters with no whitespace at
    either end, and one of the five labels. *)
Theorem v2_rows_come_from_the_extractor
    (w : world) (domain : str → str) (goal : Z) (generators : list producer) :
  generators ≡ₚ V2.build_generators w →
  (∀ r, r ∈ all_yields generators →
     (len (paragraph r) < MIN_PARAGRAPH_LEN ↔ paragraph r = [])
     ∧ strip (paragraph r) = paragraph r
     ∧ tipo r ∈ V2_LABELS)
  ∧ (∀ r, r ∈ csv (V2.main domain goal generators) →
       MIN_PARAGRAPH_LEN ≤ len (paragraph r)
       ∧ strip (paragraph r) = paragraph r
       ∧ tipo r ∈ V2_LABELS).
Proof.
  intros Hp.
  assert (∀ r, r ∈ all_yields generators →
            extracted MIN_PARAGRAPH_LEN (paragraph r) ∧ tipo r ∈ V2_LABELS)
    as Hy.
  { intros r Hr.
    exact (yielded_by _ _ _ r Hp (v2_generators_yield w) Hr). }
  split.
  - intros r Hr. destruct (Hy r Hr) as [[Hl Hs] Ht]. split_and!; [|done..].
    split.
    + intros Hlt. destruct Hl as [?|?]; [done|lia].
    + intros ->. done.
  - intros r Hr.
    assert (MIN_PARAGRAPH_LEN ≤ len (paragraph r)) as Hlen.
    { pose proof (rows_fit (DomainAware domain goal) generators) as Hf.
      rewrite Forall_forall in Hf. by apply (Hf r). }
    apply (rows_yielded (DomainAware domain goal)) in Hr.
    destruct (Hy r Hr) as [[_ Hs] Ht]. done.
Qed.

Lemma v2_rows_come_from_the_extractor_witness :
  let r := Rec long_text (py "noticia") short_link in
  r ∈ csv (V2.main whole_url 3 (V2.build_generators redirecting_world))
  ∧ MIN_PARAGRAPH_LEN ≤ len (paragraph r)
  ∧ tipo r ∈ V2_LABELS.
Proof.
  assert (Rec long_text (py "noticia") short_link
            ∈ csv (V2.main whole_url 3 (V2.build_generators redirecting_world)))
    as Hr.
  { assert (csv (V2.main whole_url 3 (V2.build_generators redirecting_world))
            = [Rec long_text (py "noticia") short_link;
               Rec long_text (py "novela") quijote_url;
               Rec long_text (py "novela")
                 (py "https://www.cervantesvirtual.com/obra-visor/la-barraca-0/html/")]) as ->
      by (vm_compute; reflexivity).
    apply list_elem_of_here. }
  split; [exact Hr|].
  destruct (v2_rows_come_from_the_extractor redirecting_world whole_url 3
              (V2.build_generators redirecting_world)) as [_ H]; [reflexivity|].
  destruct (H _ Hr) as (Hl & _ & Ht).
  split; [exact Hl|exact Ht].
Defined.

(** ** How many rows there can be *)

Lemma filter_nodup_key {A} (f : A → str) (k : str) (l : list A) :
  NoDup (f <$> l) → (length (filter (λ r, f r = k) l) ≤ 1)%nat.
Proof.
  induction l as [|a l IH]; [simpl; lia|].
  rewrite fmap_cons, NoDup_cons. intros [Hn Hd].
  rewrite filter_cons. destruct (decide (f a = k)) as [<-|]; [|by apply IH].
  assert (filter (λ r, f r = f a) l = []) as ->; [|simpl; lia].
  clear IH Hd. induction l as [|x l IH]; [done|].
  rewrite fmap_cons, not_elem_of_cons in Hn. destruct Hn as [Hx Hn].
  rewrite filter_cons. destruct (decide (f x = f a)); [congruence|by apply IH].
Qed.

(** There are never more rows than distinct keys among the records the
    producers yield (distinct addresses, or distinct domains in the
    domain-aware program), and no key has more than one row: in the
    domain-aware program all the records of one site give one row at
    most, however many of its pages the producers offer. *)
Theorem rows_are_at_most_the_distinct_keys
    (v : variant) (generators : list producer) :
  (length (csv (main_of v generators))
   ≤ size (list_to_set (C := gset str) (key_of v <$> all_yields generators)))%nat
  ∧ ∀ k, (length (filter (λ r, key_of v r = k) (csv (main_of v generators)))
          ≤ 1)%nat.
Proof.
  pose proof (keys_nodup v generators) as Hnd. split.
  - rewrite <- (length_fmap (key_of v)).
    rewrite <- (size_list_to_set (C := gset str)) by done.
    apply subseteq_size. intros k. rewrite !elem_of_list_to_set.
    intros (r & -> & Hr)%list_elem_of_fmap.
    apply list_elem_of_fmap_2. by eapply rows_yielded.
  - intros k. by apply filter_nodup_key.
Qed.

(** ** A text of one line *)

(** On a text without a line break the two extractors agree: both return
    the whole text, trimmed, when that has [min_len] characters, and the
    empty string otherwise. *)
Theorem single_line_text_is_taken_whole (text : str) (min_len : Z) :
  nl ∉ text →
  V1.first_long_paragraph text min_len
    = (if min_len <=? len (strip text) then strip text else [])
  ∧ V2.first_long_paragraph text min_len
    = (if min_len <=? len (strip text) then strip text else []).
Proof.
  intros Hnl. split.
  - unfold V1.first_long_paragraph.
    pose proof (split_nl_join [text]) as H. simpl in H.
    rewrite H; [done|done|]. by constructor.
  - unfold V2.first_long_paragraph, re_split_blank.
    rewrite re_split_from_whole; [done|].
    intros p q ->. exfalso. apply Hnl.
    apply elem_of_app. right. apply list_elem_of_here.
Qed.

Lemma single_line_text_is_taken_whole_witness :
  (nl ∉ py "  una sola linea  ")
  ∧ V1.first_long_paragraph (py "  una sola linea  ") 10 = py "una sola linea"
  ∧ V2.first_long_paragraph (py "  una sola linea  ") 10 = py "una sola linea".
Proof.
  assert (nl ∉ py "  una sola linea  ") as H.
  { intros Hin. apply list_elem_of_In in Hin. vm_compute in Hin.
    repeat (destruct Hin as [Hin|Hin]; [discriminate Hin|]). exact Hin. }
  split; [exact H|].
  destruct (single_line_text_is_taken_whole (py "  una sola linea  ") 10 H)
    as [H1 H2].
  split; [rewrite H1|rewrite H2]; reflexivity.
Defined.


(** * Failing producers and exhausted runs *)

(** ** What the log tells of the order of the calls *)





(** ** Producers that fail *)




(** ** Running out of sources *)



